(** * ImageUploader: a shallow embedding of [src/image-uploader.tsx]

    The component keeps four pieces of React state ([uploading], [error],
    [photos], [imageUrl]) and reports every change of the photo list to its
    parent through [onUpload].  Photo entries are JavaScript objects, so the
    model keeps them in a store and lets arrays hold references: the caption
    editor writes through such a reference.

    Handlers are written in a small monad that threads the object store,
    collects the effects a handler performs (state setters, parent callback,
    storage calls) in the order the source performs them, and propagates
    thrown values.  The React state after a handler is obtained by committing
    its effects to the state the handler closed over.

    [uploadFiles] is asynchronous in the source; the model runs a batch to
    completion inside its handler, [photos] being the list of the render in
    which the batch started, as in the closure of the source.  The storage
    service, [uuidv4] and the [URL] constructor are parameters ([Env]). *)

From stdpp Require Import base list strings pretty.
From Stdlib Require Import ZArith Lia.

Local Open Scope string_scope.
Local Open Scope list_scope.
Local Open Scope nat_scope.

(** ** JavaScript arrays *)

Module JsArray.
Section Ops.
Context {A : Type}.

(** [Array.prototype.splice]: a negative [start] counts from the end, and
    both [start] and [deleteCount] are clamped to the array. *)
Definition actual_start (len start : Z) : Z :=
  if (start <? 0)%Z then Z.max (len + start) 0 else Z.min start len.

(** [splice a start deleteCount items] is the pair of the removed elements
    (the value [splice] returns) and the array after the call. *)
Definition splice (a : list A) (start deleteCount : Z) (items : list A)
  : list A * list A :=
  let len := Z.of_nat (length a) in
  let s := actual_start len start in
  let d := Z.min (Z.max deleteCount 0) (len - s) in
  (take (Z.to_nat d) (drop (Z.to_nat s) a),
   take (Z.to_nat s) a ++ items ++ drop (Z.to_nat s + Z.to_nat d) a).

(** [a.filter((x, i) => p x i)], scanning from position [i]. *)
Fixpoint filter_from (p : A → nat → bool) (i : nat) (a : list A) : list A :=
  match a with
  | [] => []
  | x :: a' =>
      if p x i then x :: filter_from p (S i) a' else filter_from p (S i) a'
  end.

(** [a.findIndex((x, i) => p x i)], scanning from position [i]; [-1] when
    no element satisfies [p]. *)
Fixpoint findIndex_from (p : A → nat → bool) (i : nat) (a : list A) : Z :=
  match a with
  | [] => (-1)%Z
  | x :: a' => if p x i then Z.of_nat i else findIndex_from p (S i) a'
  end.
End Ops.

Definition filter {A} (p : A → nat → bool) (a : list A) : list A :=
filter_from p 0 a.
Definition findIndex {A} (p : A → nat → bool) (a : list A) : Z :=
findIndex_from p 0 a.
End JsArray.

(** ** Data model *)

(** A reference to a photo object in the store. *)
Abbreviation loc := nat.

(** [interface UploadedPhoto { url: string; caption?: string }] *)
Record UploadedPhoto := mkPhoto { url : string; caption : option string }.

(** The object store: the object at reference [r] is [heap !! r]. *)
Abbreviation Heap := (list UploadedPhoto).

(** The fields of a browser [File] the component reads. *)
Record File := mkFile { file_name : string; file_type : string; file_size : Z }.

(** Values a [throw] can carry: an [Error] object with its message, or
    anything that is not an instance of [Error]. *)
Inductive thrown := ErrorObj (message : string) | NonError.

(** What [await supabase.storage.from(..).upload(..)] yields: a result with
    no [error], a result whose [error] has a message, or a rejection. *)
Inductive upload_reply :=
| UploadOk
| UploadError (message : string)
| UploadRejects (e : thrown).

(** The component's external collaborators.  Storage calls and [uuidv4] are
    indexed by the position of the file in the batch being uploaded. *)
Record Env := mkEnv {
  URL_parses : string → bool;            (* [new URL(s)] does not throw *)
  uuidv4 : nat → string;
  storage_upload : nat → string → File → upload_reply;
  storage_getPublicUrl : nat → string → option string
}.

(** React state of [ImageUploader]. *)
Record State := mkState {
  uploading : bool;
  error : option string;
  photos : list loc;
  imageUrl : string
}.

(** [useState] initial values. *)
Definition initial_state : State := mkState false None [] "".

(** The effects a handler performs, in program order. *)
Inductive effect :=
| SetUploading (b : bool)
| SetError (e : option string)
| SetPhotos (l : list loc)
| SetImageUrl (s : string)
| OnUpload (l : list loc)
| StorageUpload (path : string) (file : File)
| StorageGetPublicUrl (path : string).

Definition apply_effect (st : State) (e : effect) : State :=
  match e with
  | SetUploading b => mkState b (error st) (photos st) (imageUrl st)
  | SetError m => mkState (uploading st) m (photos st) (imageUrl st)
  | SetPhotos l => mkState (uploading st) (error st) l (imageUrl st)
  | SetImageUrl s => mkState (uploading st) (error st) (photos st) s
  | OnUpload _ | StorageUpload _ _ | StorageGetPublicUrl _ => st
  end.

(** The state of the next render: the setters of the trace applied in order. *)
Definition commit (st : State) (tr : list effect) : State :=
  fold_left apply_effect tr st.

(** The lists handed to the parent, in order. *)
Definition notifications (tr : list effect) : list (list loc) :=
  omap (λ e, match e with OnUpload l => Some l | _ => None end) tr.

(** The lists written to the [photos] state, in order. *)
Definition photo_writes (tr : list effect) : list (list loc) :=
  omap (λ e, match e with SetPhotos l => Some l | _ => None end) tr.

(** The storage uploads attempted, in order. *)
Definition uploads (tr : list effect) : list (string * File) :=
  omap (λ e, match e with StorageUpload p f => Some (p, f) | _ => None end) tr.

(** The writes to the [uploading] flag, in order. *)
Definition uploading_writes (tr : list effect) : list bool :=
  omap (λ e, match e with SetUploading b => Some b | _ => None end) tr.

(** The writes to the [error] slot, in order. *)
Definition error_writes (tr : list effect) : list (option string) :=
  omap (λ e, match e with SetError m => Some m | _ => None end) tr.

(** The photo entries a list of references denotes in a store. *)
Definition entries (h : Heap) (l : list loc) : list (option UploadedPhoto) :=
  (λ r, h !! r) <$> l.

(** ** The handler monad *)

Inductive completion (A : Type) :=
| Normal (a : A)
| Throw (e : thrown).
Arguments Normal {A} a.
Arguments Throw {A} e.

Record outcome (A : Type) := mkOutcome {
  result : completion A;
  store : Heap;
  trace : list effect
}.
Arguments mkOutcome {A} _ _ _.
Arguments result {A} _.
Arguments store {A} _.
Arguments trace {A} _.

Definition M (A : Type) : Type := Heap → outcome A.

Definition ret {A} (a : A) : M A := λ h, mkOutcome (Normal a) h [].

Definition bind {A B} (m : M A) (k : A → M B) : M B := λ h,
  let o := m h in
  match result o with
  | Normal a =>
      let o' := k a (store o) in
      mkOutcome (result o') (store o') (trace o ++ trace o')
  | Throw e => mkOutcome (Throw e) (store o) (trace o)
  end.

Definition throw {A} (e : thrown) : M A := λ h, mkOutcome (Throw e) h [].

Definition emit (e : effect) : M unit := λ h, mkOutcome (Normal tt) h [e].

(** An object literal: a new object in the store. *)
Definition alloc (p : UploadedPhoto) : M loc := λ h,
  mkOutcome (Normal (length h)) (h ++ [p]) [].

(** [r.caption = c] *)
Definition set_caption (r : loc) (c : string) : M unit := λ h,
  mkOutcome (Normal tt) (alter (λ p, mkPhoto (url p) (Some c)) r h) [].

(** [try { body } catch (e) { handler e } finally { final }] *)
Definition try_catch_finally (body : M unit) (handler : thrown → M unit)
    (final : M unit) : M unit := λ h,
  let o := body h in
  let o1 :=
    match result o with
    | Normal _ => o
    | Throw e =>
        let oh := handler e (store o) in
        mkOutcome (result oh) (store oh) (trace o ++ trace oh)
    end in
  let o2 := final (store o1) in
  mkOutcome
    (match result o2 with Normal _ => result o1 | Throw e => Throw e end)
    (store o2) (trace o1 ++ trace o2).

Declare Scope handler_scope.
Delimit Scope handler_scope with handler.
Notation "'let!' x ':=' m 'in' k" := (bind m (λ x, k))
  (at level 10, x name, m at level 100, k at level 200) : handler_scope.
Notation "m >>> k" := (bind m (λ _, k))
  (at level 100, k at level 200, right associativity) : handler_scope.
Local Open Scope handler_scope.

(** ** The component *)

Definition allowedTypes : list string :=
  ["image/jpeg"; "image/png"; "image/webp"].

Definition maxSize : Z := 5 * 1024 * 1024.

(** JavaScript truthiness of [string | undefined], negated: [!s]. *)
Definition falsy (s : option string) : bool :=
  match s with
  | None => true
  | Some s => bool_decide (s = "")
  end.

(** The mount effect: [if (existingPhotos.length > 0) setPhotos(existingPhotos)],
    the prop defaulting to [[]] when it is absent. *)
Definition mount (existingPhotos : option (list loc)) : M unit :=
  let existingPhotos := default [] existingPhotos in
  if (0 <? length existingPhotos)%nat then emit (SetPhotos existingPhotos)
  else ret tt.

Definition updatePhotos (newPhotos : list loc) : M unit :=
  emit (SetPhotos newPhotos) >>>
  emit (OnUpload newPhotos).

(** The callback given to [filter] in [uploadFiles]. *)
Definition validate (file : File) : M bool :=
  if negb (bool_decide (file_type file ∈ allowedTypes)) then
    emit (SetError (Some ("Unsupported file type: " +:+ file_name file))) >>>
    ret false
  else if (file_size file >? maxSize)%Z then
    emit (SetError
            (Some ("File too large: " +:+ file_name file +:+ " (Max: 5MB)"))) >>>
    ret false
  else ret true.

(** [Array.from(files).filter(cb)] for a callback with effects. *)
Fixpoint filter_files (cb : File → M bool) (files : list File)
  : M (list File) :=
  match files with
  | [] => ret []
  | file :: rest =>
      let! keep := cb file in
      let! kept := filter_files cb rest in
      ret (if keep then file :: kept else kept)
  end.

(** The body of [for (const file of validFiles)], from the file at position
    [k] of the batch on; [uploadedPhotos] is the array built so far. *)
Fixpoint upload_loop (env : Env) (k : nat) (validFiles : list File)
    (uploadedPhotos : list loc) : M (list loc) :=
  match validFiles with
  | [] => ret uploadedPhotos
  | file :: rest =>
      let fileName := uuidv4 env k +:+ "_" +:+ file_name file in
      let filePath := fileName in
      emit (StorageUpload filePath file) >>>
      match storage_upload env k filePath file with
      | UploadRejects e => throw e
      | UploadError message => throw (ErrorObj message)
      | UploadOk =>
          emit (StorageGetPublicUrl filePath) >>>
          let publicUrl := storage_getPublicUrl env k filePath in
          if falsy publicUrl then
            throw (ErrorObj "Failed to retrieve public URL")
          else
            let! p := alloc (mkPhoto (default "" publicUrl) (Some "")) in
            upload_loop env (S k) rest (uploadedPhotos ++ [p])
      end
  end.

Definition uploadFiles (env : Env) (st : State) (files : list File) : M unit :=
  let! validFiles := filter_files validate files in
  if (length validFiles =? 0)%nat then ret tt
  else
    emit (SetUploading true) >>>
    try_catch_finally
      (let! uploadedPhotos := upload_loop env 0 validFiles [] in
       updatePhotos (photos st ++ uploadedPhotos))
      (λ uploadError,
         emit (SetError (Some match uploadError with
                              | ErrorObj message => message
                              | NonError => "An unknown error occurred"
                              end)))
      (emit (SetUploading false)).

(** [event.target.files] is [None] when it is null. *)
Definition handleImageUpload (env : Env) (st : State)
    (files : option (list File)) : M unit :=
  emit (SetError None) >>>
  match files with
  | None | Some [] => emit (SetError (Some "Please select at least one file."))
  | Some files => uploadFiles env st files
  end.

Definition handleAddUrl (env : Env) (st : State) : M unit :=
  if bool_decide (imageUrl st = "") then ret tt
  else if negb (URL_parses env (imageUrl st)) then
    emit (SetError (Some "Invalid URL format."))
  else
    let! p := alloc (mkPhoto (imageUrl st) (Some "")) in
    updatePhotos (photos st ++ [p]) >>>
    emit (SetImageUrl "").

(** Photo arrays of the model hold object references only.  A call that
    would store [undefined] in the array (the source index names no element)
    has no result in the model: [None]. *)
Definition movePhoto (st : State) (from to : Z) : option (M unit) :=
  if ((to <? 0) || (to >=? Z.of_nat (length (photos st))))%Z then Some (ret tt)
  else
    let updated := photos st in
    let '(removed, updated) := JsArray.splice updated from 1 [] in
    match removed with
    | moved :: _ =>
        let '(_, updated) := JsArray.splice updated to 0 [moved] in
        Some (updatePhotos updated)
    | [] => None
    end.

(** Modelled from the spec: [arrayMove] is imported from the drag-and-drop
    library and is not under src/.  The spec gives it array move semantics
    (removes at source index, inserts at destination index, no other entries
    change relative order); the library does this with two [splice] calls on
    a copy of the array, a negative destination being read from the end of
    the array before the removal.  [None] as for [movePhoto]. *)
Definition arrayMove {A} (array : list A) (from to : Z) : option (list A) :=
  let newArray := array in
  let dest := if (to <? 0)%Z then (Z.of_nat (length newArray) + to)%Z else to in
  let '(removed, newArray) := JsArray.splice newArray from 1 [] in
  match removed with
  | moved :: _ => Some (snd (JsArray.splice newArray dest 0 [moved]))
  | [] => None
  end.

(** The id of the sortable item at position [i]: [`photo-${i}`]. *)
Definition photo_id (i : nat) : string := "photo-" +:+ pretty i.

(** [handleDragEnd] on an event whose [active.id] is [active] and whose
    [over] is null ([None]) or has id [s] ([Some s]); [over?.id] is then
    [undefined] or [s]. *)
Definition handleDragEnd (st : State) (active : string) (over : option string)
  : option (M unit) :=
  if bool_decide (Some active ≠ over) then
    let oldIndex :=
      JsArray.findIndex (λ _ i, bool_decide (photo_id i = active)) (photos st) in
    let newIndex :=
      JsArray.findIndex (λ _ i, bool_decide (Some (photo_id i) = over))
        (photos st) in
    updatePhotos <$> arrayMove (photos st) oldIndex newIndex
  else Some (ret tt).

Definition removePhoto (st : State) (index : Z) : M unit :=
  let updated :=
    JsArray.filter (λ _ i, negb (Z.of_nat i =? index)%Z) (photos st) in
  updatePhotos updated.

(** The [onCaptionChange] callback of the row at [index]:
    [updated[index].caption = caption] writes to the object the array refers
    to, and throws a [TypeError] when [updated[index]] is [undefined]. *)
Definition onCaptionChange (st : State) (index : nat) (caption : string)
  : M unit :=
  let updated := photos st in
  match updated !! index with
  | Some r => set_caption r caption >>> updatePhotos updated
  | None =>
      throw (ErrorObj "Cannot set properties of undefined (setting 'caption')")
  end.

(** ** Events *)

(** The callbacks wired to the row rendered for position [index]. *)
Inductive row_action :=
| Remove
| MoveUp
| MoveDown
| CaptionChange (caption : string).

Inductive event :=
| FileInputChange (files : option (list File))
| UrlInputChange (value : string)
| AddClick
| Row (index : nat) (a : row_action)
| DragEnd (active : string) (over : option string).

(** The handler an event runs.  [photos.map] renders a row for each position
    of the list and for no other index, so a row event for another index has
    no handler. *)
Definition handle (env : Env) (st : State) (ev : event) : option (M unit) :=
  match ev with
  | FileInputChange files => Some (handleImageUpload env st files)
  | UrlInputChange value => Some (emit (SetImageUrl value))
  | AddClick => Some (handleAddUrl env st)
  | Row index a =>
      if (index <? length (photos st))%nat then
        match a with
        | Remove => Some (removePhoto st (Z.of_nat index))
        | MoveUp => movePhoto st (Z.of_nat index) (Z.of_nat index - 1)
        | MoveDown => movePhoto st (Z.of_nat index) (Z.of_nat index + 1)
        | CaptionChange caption => Some (onCaptionChange st index caption)
        end
      else None
  | DragEnd active over => handleDragEnd st active over
  end.

(** One event: the next render's state and store, with the handler's trace.
    A file selection is taken together with the completion of its batch;
    events that arrive while an upload is in flight are outside [step]. *)
Definition step (env : Env) (st : State) (h : Heap) (ev : event)
  : option (State * Heap * list effect) :=
  m ← handle env st ev;
  let o := m h in
  Some (commit st (trace o), store o, trace o).

(** A sequence of events, each handled in the render the previous one
    produced. *)
Fixpoint steps (env : Env) (st : State) (h : Heap) (evs : list event)
  : option (State * Heap) :=
  match evs with
  | [] => Some (st, h)
  | ev :: evs' =>
      '(st', h', _) ← step env st h ev;
      steps env st' h' evs'
  end.

(** ** Vocabulary of the statements *)

(** The storage key [uploadFiles] builds for the file at batch position [k]. *)
Definition file_path (env : Env) (k : nat) (file : File) : string :=
  uuidv4 env k +:+ "_" +:+ file_name file.

(** A file passes validation: allowed MIME type and at most [maxSize] bytes. *)
Definition valid (file : File) : bool :=
  bool_decide (file_type file ∈ allowedTypes) && (file_size file <=? maxSize)%Z.

(** The message validation leaves in the error slot for a file it excludes. *)
Definition rejection (file : File) : option string :=
  if negb (bool_decide (file_type file ∈ allowedTypes)) then
    Some ("Unsupported file type: " +:+ file_name file)
  else if (file_size file >? maxSize)%Z then
    Some ("File too large: " +:+ file_name file +:+ " (Max: 5MB)")
  else None.

(** What goes wrong, if anything, for the file at batch position [k]: its
    upload fails or is rejected, or no public URL comes back for it. *)
Definition file_failure (env : Env) (k : nat) (file : File) : option thrown :=
  match storage_upload env k (file_path env k file) file with
  | UploadRejects e => Some e
  | UploadError message => Some (ErrorObj message)
  | UploadOk =>
      if falsy (storage_getPublicUrl env k (file_path env k file)) then
        Some (ErrorObj "Failed to retrieve public URL")
      else None
  end.

(** The message the [catch] clause shows for a thrown value. *)
Definition shown_message (e : thrown) : string :=
  match e with
  | ErrorObj message => message
  | NonError => "An unknown error occurred"
  end.

(** Every position of [vf], read as a batch position from [k] on, goes
    through. *)
Definition batch_ok (env : Env) (k : nat) (vf : list File) : Prop :=
  ∀ i file, vf !! i = Some file → file_failure env (k + i) file = None.

(** Position [i] of [vf] is the first one that goes wrong, with [e]. *)
Definition first_failure (env : Env) (k : nat) (vf : list File) (i : nat)
    (e : thrown) : Prop :=
  (∃ file, vf !! i = Some file ∧ file_failure env (k + i) file = Some e)
  ∧ ∀ i' file, i' < i → vf !! i' = Some file →
      file_failure env (k + i') file = None.

(** The setter calls validation makes for a selection. *)
Definition validation_trace (files : list File) : list effect :=
  (λ m, SetError (Some m)) <$> omap rejection files.

(** The photo object pushed for the file at batch position [k]. *)
Definition uploaded_photo (env : Env) (k : nat) (file : File) : UploadedPhoto :=
  mkPhoto (default "" (storage_getPublicUrl env k (file_path env k file)))
    (Some "").

(** The render after a handler that only replaces the photo list. *)
Definition with_photos (st : State) (l : list loc) : State :=
  mkState (uploading st) (error st) l (imageUrl st).

(** Only storage calls, no setter and no parent callback. *)
Definition storage_only (tr : list effect) : Prop :=
  Forall (λ e, match e with
               | StorageUpload _ _ | StorageGetPublicUrl _ => True
               | _ => False
               end) tr.

(** [n] presses of the down button, following the photo that starts at [i]. *)
Fixpoint presses_down (n i : nat) : list event :=
  match n with
  | 0 => []
  | S n' => Row i MoveDown :: presses_down n' (S i)
  end.

(** [n] presses of the up button, following the photo that starts at [i]. *)
Fixpoint presses_up (n i : nat) : list event :=
  match n with
  | 0 => []
  | S n' => Row i MoveUp :: presses_up n' (i - 1)
  end.

(** The single-step moves that take the photo at [i] to position [j]. *)
Definition single_steps (i j : nat) : list event :=
  if i <? j then presses_down (j - i) i else presses_up (i - j) i.


(** ** The rendered rows *)

(** The props [ImageUploader] passes to the [SortablePhoto] of one row that
    decide what the row offers: its sortable id, its index, the photo, and
    the flags that disable the up and the down button. *)
Record RowProps := mkRow {
  row_id : string;
  row_index : nat;
  row_photo : loc;
  isFirst : bool;
  isLast : bool
}.

(** [photos.map((photo, index) => <SortablePhoto ... />)] *)
Definition rows (st : State) : list RowProps :=
  imap (λ index photo,
          mkRow (photo_id index) index photo
            (index =? 0)
            (Z.of_nat index =? Z.of_nat (length (photos st)) - 1)%Z)
    (photos st).

(** The [items] of the [SortableContext]: [photos.map((_, i) => `photo-${i}`)]. *)
Definition sortable_items (st : State) : list string :=
  imap (λ i _, photo_id i) (photos st).

(** The events that only reorder: the two arrow buttons and a drag. *)
Definition is_reorder (ev : event) : bool :=
  match ev with
  | Row _ MoveUp | Row _ MoveDown | DragEnd _ _ => true
  | _ => false
  end.

(** The events that never touch the upload flag, the error slot or the URL
    field: everything a row offers, and a drag. *)
Definition is_list_edit (ev : event) : bool :=
  match ev with
  | Row _ _ | DragEnd _ _ => true
  | _ => false
  end.

(** The mutation paths of the photo list, read off the calls of
    [updatePhotos] and the caption write: an upload batch with at least one
    valid file whose files all go through, a URL addition with a non-empty
    text that parses, the removal of a row, a move that stays inside the
    list, a caption edit, and a drag that does not end on the dragged item
    itself.  (Rows are rendered rows: [handle] has no handler otherwise.) *)
Definition mutates (env : Env) (st : State) (ev : event) : Prop :=
  match ev with
  | FileInputChange files =>
      ∃ fs, files = Some fs
            ∧ List.filter valid fs ≠ []
            ∧ batch_ok env 0 (List.filter valid fs)
  | UrlInputChange _ => False
  | AddClick => imageUrl st ≠ "" ∧ URL_parses env (imageUrl st) = true
  | Row _ Remove => True
  | Row index MoveUp => 0 < index
  | Row index MoveDown => S index < length (photos st)
  | Row _ (CaptionChange _) => True
  | DragEnd active over => Some active ≠ over
  end.

(** The storage calls of a batch in which every file goes through: for each
    file, from batch position [k] on, its upload and then its public URL. *)
Definition storage_calls (env : Env) (k : nat) (vf : list File) : list effect :=
  mjoin (imap (λ i file,
                 [StorageUpload (file_path env (k + i) file) file;
                  StorageGetPublicUrl (file_path env (k + i) file)]) vf).


(** Sample collaborators and data, used to exercise the statements: a storage
    service that refuses the file named [b.png] and serves every other file
    under [https://cdn.test/]. *)
Definition sample_env : Env :=
  mkEnv
    (λ s, negb (bool_decide (s = "not a url")))
    (λ k, "id" +:+ pretty k)
    (λ _ _ file,
       if bool_decide (file_name file = "b.png") then UploadError "quota exceeded"
       else UploadOk)
    (λ _ path, Some ("https://cdn.test/" +:+ path)).

Definition sample_heap : Heap :=
  [mkPhoto "https://x.test/0.jpg" None; mkPhoto "https://x.test/1.jpg" (Some "one")].

Definition sample_state : State := mkState false None [0; 1] "".

(** The spec's wording of a move: the entry at the source index is removed
    and inserted at the destination index of what is left. *)
Definition remove_insert {A} (i j : nat) (l : list A) : list A :=
  match l !! i with
  | Some x => take j (delete i l) ++ x :: drop j (delete i l)
  | None => l
  end.

(** ** Lists: removing at one position and inserting at another *)

Section ListFacts.
Context {A : Type}.
Implicit Types (l a b c : list A) (x : A).

Lemma splice_remove_one l i x :
  l !! i = Some x →
  JsArray.splice l (Z.of_nat i) 1 [] = ([x], delete i l).
Proof.
  intros Hx. pose proof (lookup_lt_Some _ _ _ Hx) as Hlt.
  unfold JsArray.splice, JsArray.actual_start.
  destruct (Z.ltb_spec (Z.of_nat i) 0) as [?|_]; [lia|].
  replace (Z.min (Z.of_nat i) (Z.of_nat (length l))) with (Z.of_nat i) by lia.
  replace (Z.min (Z.max 1 0) (Z.of_nat (length l) - Z.of_nat i)) with 1%Z by lia.
  rewrite Nat2Z.id. change (Z.to_nat 1) with 1.
  rewrite (drop_S _ _ _ Hx), delete_take_drop. simpl.
  by rewrite Nat.add_1_r.
Qed.

Lemma splice_insert_one l j x :
  j ≤ length l →
  JsArray.splice l (Z.of_nat j) 0 [x] = ([], take j l ++ x :: drop j l).
Proof.
  intros Hle. unfold JsArray.splice, JsArray.actual_start.
  destruct (Z.ltb_spec (Z.of_nat j) 0) as [?|_]; [lia|].
  replace (Z.min (Z.of_nat j) (Z.of_nat (length l))) with (Z.of_nat j) by lia.
  replace (Z.min (Z.max 0 0) (Z.of_nat (length l) - Z.of_nat j)) with 0%Z by lia.
  rewrite Nat2Z.id. change (Z.to_nat 0) with 0.
  by rewrite Nat.add_0_r.
Qed.

Lemma arrayMove_in_range l i j :
  i < length l → j < length l →
  arrayMove l (Z.of_nat i) (Z.of_nat j) = Some (remove_insert i j l).
Proof.
  intros Hi Hj. destruct (lookup_lt_is_Some_2 l i Hi) as [x Hx].
  unfold arrayMove, remove_insert.
  destruct (Z.ltb_spec (Z.of_nat j) 0) as [?|_]; [lia|].
  rewrite (splice_remove_one _ _ _ Hx), Hx.
  rewrite splice_insert_one; [done|].
  rewrite length_delete by eauto. lia.
Qed.

(** Moving forward over a block [b]. *)
Lemma remove_insert_forward a x b c :
  remove_insert (length a) (length a + length b) (a ++ x :: b ++ c)
  = a ++ b ++ x :: c.
Proof.
  unfold remove_insert.
  rewrite list_lookup_middle by done.
  rewrite delete_middle.
  rewrite (app_assoc a b c), <- length_app.
  by rewrite take_app_length, drop_app_length, <- app_assoc.
Qed.

(** Moving backward over a block [b]. *)
Lemma remove_insert_backward a b x c :
  remove_insert (length a + length b) (length a) (a ++ b ++ x :: c)
  = a ++ x :: b ++ c.
Proof.
  unfold remove_insert.
  rewrite (app_assoc a b (x :: c)), <- length_app.
  rewrite list_lookup_middle by done.
  rewrite delete_middle, <- app_assoc.
  by rewrite take_app_length, drop_app_length.
Qed.

Lemma split_forward l i j :
  i ≤ j → j < length l →
  ∃ a x b c, l = a ++ x :: b ++ c ∧ length a = i ∧ length b = j - i.
Proof.
  intros Hij Hj.
  destruct (lookup_lt_is_Some_2 l i) as [x Hx]; [lia|].
  exists (take i l), x, (take (j - i) (drop (S i) l)),
    (drop (j - i) (drop (S i) l)).
  rewrite take_drop, (take_drop_middle _ _ _ Hx).
  rewrite !length_take, length_drop. split; [done|lia].
Qed.

Lemma split_backward l i j :
  j ≤ i → i < length l →
  ∃ a b x c, l = a ++ b ++ x :: c ∧ length a = j ∧ length b = i - j.
Proof.
  intros Hji Hi.
  destruct (lookup_lt_is_Some_2 l i) as [x Hx]; [lia|].
  assert (drop j l !! (i - j) = Some x) as Hx'.
  { rewrite lookup_drop. by replace (j + (i - j)) with i by lia. }
  exists (take j l), (take (i - j) (drop j l)), x,
    (drop (S (i - j)) (drop j l)).
  rewrite (take_drop_middle _ _ _ Hx'), take_drop.
  rewrite !length_take, length_drop. split; [done|lia].
Qed.
End ListFacts.

(** ** Moves *)

Section Moves.
Variable env : Env.
Implicit Types (st : State) (h : Heap).

Lemma updatePhotos_run l h :
  updatePhotos l h = mkOutcome (Normal tt) h [SetPhotos l; OnUpload l].
Proof. reflexivity. Qed.

Lemma movePhoto_in_range st i j :
  i < length (photos st) → j < length (photos st) →
  movePhoto st (Z.of_nat i) (Z.of_nat j)
  = Some (updatePhotos (remove_insert i j (photos st))).
Proof.
  intros Hi Hj. destruct (lookup_lt_is_Some_2 _ _ Hi) as [x Hx].
  unfold movePhoto, remove_insert.
  destruct (Z.ltb_spec (Z.of_nat j) 0) as [?|_]; [lia|].
  destruct (Z.geb_spec (Z.of_nat j) (Z.of_nat (length (photos st))))
    as [?|_]; [lia|].
  cbn [orb]. rewrite (splice_remove_one _ _ _ Hx), Hx.
  rewrite splice_insert_one; [done|].
  rewrite length_delete by eauto. lia.
Qed.

Lemma step_move_down st h i :
  S i < length (photos st) →
  step env st h (Row i MoveDown)
  = Some (with_photos st (remove_insert i (S i) (photos st)), h,
          [SetPhotos (remove_insert i (S i) (photos st));
           OnUpload (remove_insert i (S i) (photos st))]).
Proof.
  intros Hi. unfold step. simpl.
  destruct (Nat.ltb_spec i (length (photos st))) as [_|?]; [|lia].
  replace (Z.of_nat i + 1)%Z with (Z.of_nat (S i)) by lia.
  by rewrite movePhoto_in_range by lia.
Qed.

Lemma step_move_up st h i :
  0 < i → i < length (photos st) →
  step env st h (Row i MoveUp)
  = Some (with_photos st (remove_insert i (i - 1) (photos st)), h,
          [SetPhotos (remove_insert i (i - 1) (photos st));
           OnUpload (remove_insert i (i - 1) (photos st))]).
Proof.
  intros H0 Hi. unfold step. simpl.
  destruct (Nat.ltb_spec i (length (photos st))) as [_|?]; [|lia].
  replace (Z.of_nat i - 1)%Z with (Z.of_nat (i - 1)) by lia.
  by rewrite movePhoto_in_range by lia.
Qed.

(** Pressing down over a block [b] carries [x] past it, one step at a
    time. *)
Lemma presses_down_run b : ∀ a x c st h,
  photos st = a ++ x :: b ++ c →
  steps env st h (presses_down (length b) (length a))
  = Some (with_photos st (a ++ b ++ x :: c), h).
Proof.
  induction b as [|y b IH]; intros a x c st h Hst.
  - simpl in *. rewrite <- Hst. by destruct st.
  - cbn [length presses_down steps].
    rewrite step_move_down by (rewrite Hst, !length_app; simpl; lia).
    cbn [mbind option_bind].
    pose proof (remove_insert_forward a x [y] (b ++ c)) as Hone.
    cbn [length app] in Hone. rewrite Nat.add_1_r in Hone.
    rewrite Hst. cbn [app]. rewrite Hone.
    replace (S (length a)) with (length (a ++ [y]))
      by (rewrite length_app; simpl; lia).
    rewrite (IH (a ++ [y]) x c) by (simpl; by rewrite <- app_assoc).
    unfold with_photos. simpl. by rewrite <- app_assoc.
Qed.

(** Pressing up over a block [b] carries [x] before it. *)
Lemma presses_up_run b : ∀ a x c st h,
  photos st = a ++ b ++ x :: c →
  steps env st h (presses_up (length b) (length a + length b))
  = Some (with_photos st (a ++ x :: b ++ c), h).
Proof.
  induction b as [|y b IH] using rev_ind; intros a x c st h Hst.
  - simpl in *. rewrite <- Hst. by destruct st.
  - rewrite length_app. cbn [length]. rewrite Nat.add_1_r.
    cbn [presses_up steps].
    rewrite step_move_up
      by (rewrite ?Hst, ?length_app; simpl; rewrite ?length_app; simpl; lia).
    cbn [mbind option_bind].
    pose proof (remove_insert_backward (a ++ b) [y] x c) as Hone.
    rewrite length_app in Hone. cbn [length app] in Hone.
    replace (length a + S (length b) - 1) with (length a + length b) by lia.
    replace (length a + S (length b)) with (length a + length b + 1) by lia.
    rewrite Hst, <- (app_assoc b [y]), app_assoc. cbn [app]. rewrite Hone.
    rewrite (IH a x (y :: c)) by (simpl; by rewrite <- app_assoc).
    unfold with_photos. simpl. by rewrite <- (app_assoc b [y] c).
Qed.
End Moves.

(** ** Drag and drop *)

Section Drag.
Implicit Types (st : State) (h : Heap).

Lemma findIndex_from_hit {A} (p : A → nat → bool) (l : list A) : ∀ s i,
  i < length l →
  (∀ k x, k < i → p x (s + k) = false) →
  (∀ x, p x (s + i) = true) →
  JsArray.findIndex_from p s l = Z.of_nat (s + i).
Proof.
  induction l as [|y l IH]; intros s i Hi Hmiss Hhit; simpl in *; [lia|].
  destruct i as [|i].
  - rewrite Nat.add_0_r in *. by rewrite Hhit.
  - rewrite <- (Nat.add_0_r s) at 1. rewrite Hmiss by lia.
    replace (s + S i) with (S s + i) by lia.
    apply IH; [lia| |].
    + intros k x Hk. replace (S s + k) with (s + S k) by lia.
      apply Hmiss. lia.
    + intros x. replace (S s + i) with (s + S i) by lia. apply Hhit.
Qed.

Lemma findIndex_from_miss {A} (p : A → nat → bool) (l : list A) : ∀ s,
  (∀ k x, p x k = false) →
  JsArray.findIndex_from p s l = (-1)%Z.
Proof.
  induction l as [|y l IH]; intros s Hmiss; simpl; [done|].
  rewrite Hmiss. by apply IH.
Qed.

Global Instance photo_id_inj : Inj (=) (=) photo_id.
Proof.
  intros i j Hij. unfold photo_id in Hij. cbn [String.append] in Hij.
  injection Hij as Hij. change ("" +:+ ?s) with s in Hij.
  by apply (inj (pretty : nat → string)) in Hij.
Qed.

Lemma findIndex_active (l : list loc) i :
  i < length l →
  JsArray.findIndex (λ _ k, bool_decide (photo_id k = photo_id i)) l
  = Z.of_nat i.
Proof.
  intros Hi. unfold JsArray.findIndex.
  rewrite (findIndex_from_hit _ l 0 i); [done|done| |].
  - intros k _ Hk. apply bool_decide_eq_false. intros ?%(inj photo_id). lia.
  - intros _. by apply bool_decide_eq_true.
Qed.

Lemma findIndex_over (l : list loc) j :
  j < length l →
  JsArray.findIndex
    (λ _ k, bool_decide (Some (photo_id k) = Some (photo_id j))) l
  = Z.of_nat j.
Proof.
  intros Hj. unfold JsArray.findIndex.
  rewrite (findIndex_from_hit _ l 0 j); [done|done| |].
  - intros k _ Hk. apply bool_decide_eq_false.
    intros Heq%(inj Some)%(inj photo_id). lia.
  - intros _. by apply bool_decide_eq_true.
Qed.

Lemma findIndex_no_over (l : list loc) :
  JsArray.findIndex (λ _ k, bool_decide (Some (photo_id k) = None)) l
  = (-1)%Z.
Proof. by apply findIndex_from_miss. Qed.

Lemma handleDragEnd_same st a : handleDragEnd st a (Some a) = Some (ret tt).
Proof.
  unfold handleDragEnd. by rewrite bool_decide_eq_false_2 by (intros ?; done).
Qed.

Lemma handleDragEnd_in_range st i j :
  i < length (photos st) → j < length (photos st) → i ≠ j →
  handleDragEnd st (photo_id i) (Some (photo_id j))
  = Some (updatePhotos (remove_insert i j (photos st))).
Proof.
  intros Hi Hj Hij. unfold handleDragEnd.
  rewrite bool_decide_eq_true_2
    by (by intros Heq%(inj Some)%(inj photo_id)).
  rewrite findIndex_active, findIndex_over by done.
  by rewrite arrayMove_in_range.
Qed.

Lemma remove_insert_same {A} (l : list A) i : remove_insert i i l = l.
Proof.
  unfold remove_insert. destruct (l !! i) as [x|] eqn:Hx; [|done].
  rewrite delete_take_drop.
  pose proof (lookup_lt_Some _ _ _ Hx) as Hlt.
  rewrite take_app_le, drop_app_ge by (rewrite length_take; lia).
  rewrite take_take, length_take, Nat.min_id.
  replace (i `min` length l) with i by lia.
  rewrite Nat.sub_diag, drop_0. by apply take_drop_middle.
Qed.

Lemma with_photos_same st : with_photos st (photos st) = st.
Proof. by destruct st. Qed.
End Drag.

(** C7. For every photo list and all positions [i], [j] of it, the drag that
    takes the item [photo-i] onto the item [photo-j] and the run of
    single-step button moves from [i] toward [j] end in the same render:
    the photo list with the entry at [i] removed and inserted at [j]. *)
Theorem drag_reorder_equals_single_steps env st h i j :
  i < length (photos st) → j < length (photos st) →
  ∃ st' tr,
    step env st h (DragEnd (photo_id i) (Some (photo_id j))) = Some (st', h, tr)
    ∧ steps env st h (single_steps i j) = Some (st', h)
    ∧ photos st' = remove_insert i j (photos st).
Proof.
  intros Hi Hj. exists (with_photos st (remove_insert i j (photos st))).
  destruct (Nat.lt_total i j) as [Hlt|[->|Hgt]].
  - eexists. split_and!; [|  |done].
    + unfold step. simpl. rewrite handleDragEnd_in_range by lia. done.
    + unfold single_steps. destruct (Nat.ltb_spec i j) as [_|?]; [|lia].
      destruct (split_forward (photos st) i j) as (a & x & b & c & Hl & Ha & Hb);
        [lia|done|].
      assert (j = length a + length b) as -> by lia. subst i.
      replace (length a + length b - length a) with (length b) by lia.
      rewrite (presses_down_run env b a x c) by done.
      by rewrite Hl, remove_insert_forward.
  - exists []. rewrite remove_insert_same, with_photos_same. split_and!; [| |done].
    + unfold step. simpl. by rewrite handleDragEnd_same.
    + unfold single_steps. rewrite Nat.ltb_irrefl, Nat.sub_diag. done.
  - eexists. split_and!; [|  |done].
    + unfold step. simpl. rewrite handleDragEnd_in_range by lia. done.
    + unfold single_steps. destruct (Nat.ltb_spec i j) as [?|_]; [lia|].
      destruct (split_backward (photos st) i j) as (a & b & x & c & Hl & Ha & Hb);
        [lia|done|].
      assert (i = length a + length b) as -> by lia. subst j.
      replace (length a + length b - length a) with (length b) by lia.
      rewrite (presses_up_run env b a x c) by done.
      by rewrite Hl, remove_insert_backward.
Qed.

Lemma drag_reorder_equals_single_steps_witness :
  ∃ st' tr,
    step (mkEnv (λ _, true) (λ _, "u") (λ _ _ _, UploadOk) (λ _ _, None))
      (mkState false None [10; 11; 12; 13] "") []
      (DragEnd (photo_id 3) (Some (photo_id 1))) = Some (st', [], tr)
    ∧ steps (mkEnv (λ _, true) (λ _, "u") (λ _ _ _, UploadOk) (λ _ _, None))
        (mkState false None [10; 11; 12; 13] "") [] (single_steps 3 1)
      = Some (st', [])
    ∧ photos st' = remove_insert 3 1 [10; 11; 12; 13].
Proof.
  apply (drag_reorder_equals_single_steps _
           (mkState false None [10; 11; 12; 13] "") [] 3 1); simpl; lia.
Defined.

(** C8. For every photo list and every index strictly between 0 and its
    length, pressing up on the row at that index and then down on the row
    above it leads back to the original render: the photo list is the
    original list. *)
Theorem move_up_then_down_restores env st h index :
  0 < index → index < length (photos st) →
  steps env st h [Row index MoveUp; Row (index - 1) MoveDown] = Some (st, h).
Proof.
  intros H0 Hlt.
  destruct (split_backward (photos st) index (index - 1))
    as (a & b & x & c & Hl & Ha & Hb); [lia|done|].
  destruct b as [|y [|??]]; simpl in Hb; try lia.
  assert (index = length a + 1) as -> by lia.
  replace (length a + 1 - 1) with (length a) by lia.
  pose proof (remove_insert_backward a [y] x c) as Hup.
  pose proof (remove_insert_forward a x [y] c) as Hdown.
  cbn [length app] in Hup, Hdown. rewrite Nat.add_1_r in Hdown.
  cbn [steps]. rewrite step_move_up by done. cbn [mbind option_bind].
  replace (length a + 1 - 1) with (length a) by lia.
  rewrite Hl. cbn [app]. rewrite Hup.
  rewrite step_move_down
    by (cbn [photos with_photos]; rewrite length_app; simpl; lia).
  cbn [mbind option_bind photos with_photos]. rewrite Hdown.
  rewrite <- (with_photos_same st) at 2. by rewrite Hl.
Qed.

Lemma move_up_then_down_restores_witness :
  steps (mkEnv (λ _, true) (λ _, "u") (λ _ _ _, UploadOk) (λ _ _, None))
    (mkState false None [4; 5; 6] "") [] [Row 2 MoveUp; Row (2 - 1) MoveDown]
  = Some (mkState false None [4; 5; 6] "", []).
Proof.
  apply (move_up_then_down_restores _ (mkState false None [4; 5; 6] "") [] 2);
    simpl; lia.
Defined.

(** ** Committing a trace *)

Section Commit.
Implicit Types (st : State) (tr : list effect).

Lemma commit_app st tr1 tr2 :
  commit st (tr1 ++ tr2) = commit (commit st tr1) tr2.
Proof. apply fold_left_app. Qed.

Lemma photos_commit tr : ∀ st,
  photos (commit st tr) = default (photos st) (last (photo_writes tr)).
Proof.
  induction tr as [|e tr IH]; intros st; [done|].
  change (commit st (e :: tr)) with (commit (apply_effect st e) tr).
  rewrite IH. destruct e; try done.
  unfold photo_writes. cbn [omap list_omap]. rewrite last_cons.
  by destruct (last _).
Qed.

Lemma error_commit tr : ∀ st,
  error (commit st tr) = default (error st) (last (error_writes tr)).
Proof.
  induction tr as [|e tr IH]; intros st; [done|].
  change (commit st (e :: tr)) with (commit (apply_effect st e) tr).
  rewrite IH. destruct e; try done.
  unfold error_writes. cbn [omap list_omap]. rewrite last_cons.
  by destruct (last _).
Qed.

Lemma uploading_commit tr : ∀ st,
  uploading (commit st tr)
  = default (uploading st) (last (uploading_writes tr)).
Proof.
  induction tr as [|e tr IH]; intros st; [done|].
  change (commit st (e :: tr)) with (commit (apply_effect st e) tr).
  rewrite IH. destruct e; try done.
  unfold uploading_writes. cbn [omap list_omap]. rewrite last_cons.
  by destruct (last _).
Qed.

Lemma notifications_app tr1 tr2 :
  notifications (tr1 ++ tr2) = notifications tr1 ++ notifications tr2.
Proof. apply omap_app. Qed.

Lemma photo_writes_app tr1 tr2 :
  photo_writes (tr1 ++ tr2) = photo_writes tr1 ++ photo_writes tr2.
Proof. apply omap_app. Qed.

Lemma error_writes_app tr1 tr2 :
  error_writes (tr1 ++ tr2) = error_writes tr1 ++ error_writes tr2.
Proof. apply omap_app. Qed.

Lemma uploading_writes_app tr1 tr2 :
  uploading_writes (tr1 ++ tr2) = uploading_writes tr1 ++ uploading_writes tr2.
Proof. apply omap_app. Qed.

Lemma uploads_app tr1 tr2 : uploads (tr1 ++ tr2) = uploads tr1 ++ uploads tr2.
Proof. apply omap_app. Qed.

(** A trace of storage calls writes no state and notifies nobody. *)
Lemma storage_only_silent tr :
  storage_only tr →
  notifications tr = [] ∧ photo_writes tr = [] ∧ error_writes tr = []
  ∧ uploading_writes tr = [].
Proof.
  induction 1 as [|e tr He _ IH]; [done|].
  destruct e; try done; apply IH.
Qed.

Lemma storage_only_app tr1 tr2 :
  storage_only tr1 → storage_only tr2 → storage_only (tr1 ++ tr2).
Proof. apply Forall_app_2. Qed.
End Commit.

(** ** Validation and the upload loop *)

Section Upload.
Variable env : Env.
Implicit Types (st : State) (h : Heap) (file : File) (files : list File).

Lemma valid_rejection file : valid file = true ↔ rejection file = None.
Proof.
  unfold valid, rejection.
  destruct (bool_decide (file_type file ∈ allowedTypes)); simpl; [|done].
  destruct (Z.gtb_spec (file_size file) maxSize),
    (Z.leb_spec (file_size file) maxSize); try done; lia.
Qed.

Lemma append_empty_r (s : string) : s +:+ "" = s.
Proof.
  induction s as [|ch s IH]; [done|].
  change (String ch (s +:+ "") = String ch s). by rewrite IH.
Qed.

Lemma rejection_names_file file m :
  rejection file = Some m →
  ∃ reason rest, m = reason +:+ file_name file +:+ rest.
Proof.
  unfold rejection. intros Hm.
  destruct (negb _).
  - injection Hm as <-. exists "Unsupported file type: ", "".
    by rewrite append_empty_r.
  - destruct (_ >? _)%Z; [|done].
    injection Hm as <-. by exists "File too large: ", " (Max: 5MB)".
Qed.

Lemma validate_run file h :
  validate file h
  = mkOutcome (Normal (valid file)) h
      (match rejection file with
       | Some m => [SetError (Some m)]
       | None => []
       end).
Proof.
  unfold validate, valid, rejection.
  destruct (bool_decide (file_type file ∈ allowedTypes)); simpl; [|done].
  destruct (Z.gtb_spec (file_size file) maxSize),
    (Z.leb_spec (file_size file) maxSize); try done; lia.
Qed.

Lemma filter_files_validate files h :
  filter_files validate files h
  = mkOutcome (Normal (List.filter valid files)) h (validation_trace files).
Proof.
  unfold validation_trace.
  induction files as [|file files IH]; [done|].
  cbn [filter_files]. unfold bind. rewrite validate_run.
  cbn [result store trace]. rewrite IH.
  cbn [result store trace ret List.filter omap list_omap].
  pose proof (valid_rejection file) as [Hv1 Hv2].
  destruct (valid file), (rejection file) as [m|];
    rewrite ?app_nil_r; try done;
    discriminate (Hv1 eq_refl) || discriminate (Hv2 eq_refl).
Qed.

Lemma upload_loop_cons_fail k file rest acc h e :
  file_failure env k file = Some e →
  ∃ tr,
    upload_loop env k (file :: rest) acc h = mkOutcome (Throw e) h tr
    ∧ storage_only tr ∧ uploads tr = [(file_path env k file, file)].
Proof.
  unfold file_failure, file_path. intros He. cbn [upload_loop].
  unfold bind at 1. cbn [emit result store trace].
  destruct (storage_upload env k _ file) as [|m|e'].
  - unfold bind at 1. cbn [emit result store trace].
    destruct (falsy _); [|done]. injection He as <-.
    eexists. split; [reflexivity|]. split; [|done].
    by repeat constructor.
  - injection He as <-. eexists. split; [reflexivity|]. split; [|done].
    by repeat constructor.
  - injection He as <-. eexists. split; [reflexivity|]. split; [|done].
    by repeat constructor.
Qed.

Lemma upload_loop_cons_ok k file rest acc h :
  file_failure env k file = None →
  upload_loop env k (file :: rest) acc h
  = let o := upload_loop env (S k) rest (acc ++ [length h])
               (h ++ [uploaded_photo env k file]) in
    mkOutcome (result o) (store o)
      (StorageUpload (file_path env k file) file
         :: StorageGetPublicUrl (file_path env k file) :: trace o).
Proof.
  unfold file_failure, file_path, uploaded_photo. intros He.
  cbn [upload_loop]. unfold bind at 1. cbn [emit result store trace].
  destruct (storage_upload env k _ file) as [|m|e']; [|done|done].
  unfold bind at 1. cbn [emit result store trace].
  destruct (falsy _); [done|].
  unfold bind at 1. cbn [alloc result store trace]. done.
Qed.

(** The loop either handles every file, returning one new reference per
    file in order, or stops at the first file that goes wrong.  Either way
    it only calls the storage service, keeps the objects already in the
    store, and uploads files of its input only. *)
Lemma upload_loop_spec vf : ∀ k acc h,
  let o := upload_loop env k vf acc h in
  storage_only (trace o)
  ∧ Forall (λ pf, pf.2 ∈ vf) (uploads (trace o))
  ∧ ((batch_ok env k vf
      ∧ result o = Normal (acc ++ seq (length h) (length vf))
      ∧ store o = h ++ imap (λ i file, uploaded_photo env (k + i) file) vf)
     ∨ (∃ i e fresh,
          first_failure env k vf i e
          ∧ result o = Throw e
          ∧ store o = h ++ fresh)).
Proof.
  induction vf as [|file rest IH]; intros k acc h o.
  - split; [constructor|]. split; [constructor|]. left.
    split; [by intros ???|]. subst o. simpl. by rewrite !app_nil_r.
  - destruct (file_failure env k file) as [e|] eqn:He.
    + destruct (upload_loop_cons_fail k file rest acc h e He)
        as (tr & Ho & Hst & Hup).
      subst o. rewrite Ho. cbn [result store trace].
      split; [done|]. split.
      { rewrite Hup. repeat constructor. }
      right. exists 0, e, []. rewrite app_nil_r. split; [|done].
      split; [|intros ???; lia].
      exists file. by rewrite Nat.add_0_r.
    + subst o. rewrite (upload_loop_cons_ok k file rest acc h He).
      specialize (IH (S k) (acc ++ [length h])
                    (h ++ [uploaded_photo env k file])).
      cbn zeta in *. destruct IH as (Hst & Hup & Hcases).
      cbn [result store trace]. split; [by repeat constructor|]. split.
      { unfold uploads. cbn [omap list_omap]. constructor; [by left|].
        eapply Forall_impl; [exact Hup|]. intros ??. by right. }
      destruct Hcases as [(Hok & Hres & Hstore)|(i & e & fresh & Hff & Hres & Hstore)].
      * left. split; [|split].
        -- intros [|i] f Hf; simpl in Hf.
           ++ injection Hf as <-. by rewrite Nat.add_0_r.
           ++ replace (k + S i) with (S k + i) by lia. by apply Hok.
        -- rewrite Hres, length_app. cbn [length seq].
           rewrite Nat.add_1_r. by rewrite <- app_assoc.
        -- rewrite Hstore. cbn [imap]. rewrite Nat.add_0_r, <- app_assoc.
           cbn [app]. do 2 f_equal. apply imap_ext. intros i f _. simpl.
           f_equal. lia.
      * right. exists (S i), e, (uploaded_photo env k file :: fresh).
        split; [|split; [done|by rewrite Hstore, <- app_assoc]].
        destruct Hff as [(f & Hf & Hfe) Hearlier]. split.
        -- exists f. by replace (k + S i) with (S k + i) by lia.
        -- intros [|i'] f' Hi' Hf'; simpl in Hf'.
           ++ injection Hf' as <-. by rewrite Nat.add_0_r.
           ++ replace (k + S i') with (S k + i') by lia.
              apply Hearlier; [lia|done].
Qed.

Lemma batch_ok_first_failure k vf i e :
  batch_ok env k vf → first_failure env k vf i e → False.
Proof.
  intros Hok [(file & Hf & He) _]. by rewrite (Hok _ _ Hf) in He.
Qed.
End Upload.

Section UploadFiles.
Variable env : Env.
Implicit Types (st : State) (h : Heap) (files : list File).

Lemma bind_emit {B} (e : effect) (k : M B) h :
  (emit e >>> k) h = mkOutcome (result (k h)) (store (k h)) (e :: trace (k h)).
Proof. reflexivity. Qed.

(** The [try] statement of [uploadFiles] around any loop [m]. *)
Lemma try_upload_run (m : M (list loc)) st h :
  try_catch_finally
    (let! uploadedPhotos := m in updatePhotos (photos st ++ uploadedPhotos))
    (λ uploadError,
       emit (SetError (Some match uploadError with
                            | ErrorObj message => message
                            | NonError => "An unknown error occurred"
                            end)))
    (emit (SetUploading false)) h
  = mkOutcome (Normal tt) (store (m h))
      (trace (m h) ++
       match result (m h) with
       | Normal uploadedPhotos =>
           [SetPhotos (photos st ++ uploadedPhotos);
            OnUpload (photos st ++ uploadedPhotos);
            SetUploading false]
       | Throw e => [SetError (Some (shown_message e)); SetUploading false]
       end).
Proof.
  unfold try_catch_finally, updatePhotos, bind, emit.
  destruct (m h) as [[up|e] h' tr]; cbn [result store trace app].
  - f_equal. by rewrite <- app_assoc.
  - f_equal. rewrite <- app_assoc. by destruct e.
Qed.

(** [uploadFiles] in terms of its three phases. *)
Lemma uploadFiles_run st files h :
  uploadFiles env st files h
  = let vf := List.filter valid files in
    if length vf =? 0 then mkOutcome (Normal tt) h (validation_trace files)
    else
      let o := upload_loop env 0 vf [] h in
      mkOutcome (Normal tt) (store o)
        (validation_trace files ++ [SetUploading true] ++ trace o ++
         match result o with
         | Normal uploadedPhotos =>
             [SetPhotos (photos st ++ uploadedPhotos);
              OnUpload (photos st ++ uploadedPhotos);
              SetUploading false]
         | Throw e => [SetError (Some (shown_message e)); SetUploading false]
         end).
Proof.
  unfold uploadFiles. unfold bind at 1. rewrite filter_files_validate.
  cbn [result store trace]. cbn zeta.
  destruct (length (List.filter valid files) =? 0).
  - cbn [ret result store trace]. by rewrite app_nil_r.
  - by rewrite bind_emit, try_upload_run.
Qed.

Lemma validation_trace_silent files :
  notifications (validation_trace files) = []
  ∧ photo_writes (validation_trace files) = []
  ∧ uploading_writes (validation_trace files) = []
  ∧ uploads (validation_trace files) = []
  ∧ error_writes (validation_trace files) = Some <$> omap rejection files.
Proof.
  unfold validation_trace.
  induction (omap rejection files) as [|m ms (?&?&?&?&IH)]; [done|].
  split_and!; try done. unfold error_writes in *. cbn. by rewrite IH.
Qed.

Lemma filter_valid_lookup files i file :
  List.filter valid files !! i = Some file → file ∈ files ∧ valid file = true.
Proof.
  intros Hf%list_elem_of_lookup_2%list_elem_of_In%filter_In.
  by rewrite list_elem_of_In.
Qed.
End UploadFiles.

Section Batches.
Variable env : Env.
Implicit Types (st : State) (h : Heap) (file : File) (files : list File).

Lemma file_failure_None k file :
  file_failure env k file = None
  ↔ storage_upload env k (file_path env k file) file = UploadOk
    ∧ falsy (storage_getPublicUrl env k (file_path env k file)) = false.
Proof.
  unfold file_failure.
  destruct (storage_upload env k _ file);
    [|split; [done|by intros [? _]]..].
  destruct (falsy _); split; try done; by intros [_ ?].
Qed.

Lemma valid_spec file :
  valid file = true
  ↔ file_type file ∈ allowedTypes ∧ (file_size file ≤ 5 * 1024 * 1024)%Z.
Proof.
  unfold valid. rewrite andb_true_iff, bool_decide_eq_true, Z.leb_le. done.
Qed.

Lemma filter_valid_all files :
  Forall (λ file, valid file = true) files → List.filter valid files = files.
Proof.
  induction 1 as [|file files Hv _ IH]; [done|].
  simpl. by rewrite Hv, IH.
Qed.

(** The writes of the trace of a batch that reaches the upload loop. *)
Lemma batch_trace_writes st vt tr tail :
  notifications vt = [] → photo_writes vt = [] → uploading_writes vt = [] →
  storage_only tr →
  let all := vt ++ [SetUploading true] ++ tr ++ tail in
  notifications all = notifications tail
  ∧ photo_writes all = photo_writes tail
  ∧ uploading_writes all = true :: uploading_writes tail
  ∧ error_writes all = error_writes vt ++ error_writes tail.
Proof.
  intros Hn Hp Hu (Hn' & Hp' & He' & Hu')%storage_only_silent all. subst all.
  rewrite !notifications_app, !photo_writes_app, !uploading_writes_app,
    !error_writes_app, Hn, Hp, Hu, Hn', Hp', He', Hu'.
  done.
Qed.

End Batches.



(** C2. For every batch of N ≥ 1 files that all have an allowed MIME type
    and at most 5 MiB, if every upload and every public-URL retrieval
    succeeds, then after the batch the photo list is the prior list followed
    by N new references; the k-th of them denotes the entry whose url is the
    public URL obtained for the k-th file and whose caption is the empty
    string; the prior objects are kept; and the parent is notified once, with
    this full list. *)
Theorem valid_batch_appends_in_order env st files h :
  files ≠ [] →
  Forall (λ file, file_type file ∈ allowedTypes
                  ∧ (file_size file ≤ 5 * 1024 * 1024)%Z) files →
  (∀ k file, files !! k = Some file →
     storage_upload env k (file_path env k file) file = UploadOk
     ∧ falsy (storage_getPublicUrl env k (file_path env k file)) = false) →
  let o := uploadFiles env st files h in
  let st' := commit st (trace o) in
  ∃ new,
    photos st' = photos st ++ new
    ∧ length new = length files
    ∧ (∀ k file, files !! k = Some file →
         ∃ r, new !! k = Some r
              ∧ store o !! r
                = Some (mkPhoto
                          (default ""
                             (storage_getPublicUrl env k (file_path env k file)))
                          (Some "")))
    ∧ (∀ r p, h !! r = Some p → store o !! r = Some p)
    ∧ notifications (trace o) = [photos st ++ new]
    ∧ result o = Normal tt
    ∧ uploading st' = false.
Proof.
  intros Hne Hvalid Hsucc o st'. subst st' o.
  assert (List.filter valid files = files) as Hvf.
  { apply filter_valid_all. eapply Forall_impl; [exact Hvalid|].
    intros file. apply valid_spec. }
  assert (batch_ok env 0 files) as Hok.
  { intros k file Hk. by apply file_failure_None, Hsucc. }
  rewrite uploadFiles_run. cbn zeta. rewrite Hvf.
  destruct (Nat.eqb_spec (length files) 0) as [Hlen|_].
  { by destruct files. }
  pose proof (upload_loop_spec env files 0 [] h) as (Hst & _ & Hcases).
  cbn zeta in Hcases.
  destruct Hcases as [(_ & Hres & Hstore)|(j & e & _ & Hff & _)];
    [|by destruct (batch_ok_first_failure env 0 files j e)].
  cbn [result store trace]. rewrite Hres, Hstore, app_nil_l.
  pose proof (validation_trace_silent files) as (Hn & Hp & Hu & _ & He).
  set (new := seq (length h) (length files)).
  pose proof (batch_trace_writes st _ _
                [SetPhotos (photos st ++ new); OnUpload (photos st ++ new);
                 SetUploading false]
                Hn Hp Hu Hst) as (Hn' & Hp' & Hu' & _).
  rewrite photos_commit, uploading_commit, Hn', Hp', Hu'.
  exists new. split_and!; try done.
  - apply length_seq.
  - intros k file Hk. exists (length h + k). split.
    + subst new. apply lookup_seq. split; [done|]. by eapply lookup_lt_Some.
    + rewrite lookup_app_r by lia.
      replace (length h + k - length h) with k by lia.
      rewrite list_lookup_imap, Hk. done.
  - intros r p Hr. by apply lookup_app_l_Some.
Qed.

Lemma valid_batch_appends_in_order_witness :
  let o := uploadFiles sample_env sample_state
             [mkFile "a.png" "image/png" 10; mkFile "c.webp" "image/webp" 5242880]
             sample_heap in
  let st' := commit sample_state (trace o) in
  ∃ new,
    photos st' = photos sample_state ++ new
    ∧ length new = 2
    ∧ (∀ k file,
         [mkFile "a.png" "image/png" 10; mkFile "c.webp" "image/webp" 5242880]
           !! k = Some file →
         ∃ r, new !! k = Some r
              ∧ store o !! r
                = Some (mkPhoto
                          (default ""
                             (storage_getPublicUrl sample_env k
                                (file_path sample_env k file)))
                          (Some "")))
    ∧ (∀ r p, sample_heap !! r = Some p → store o !! r = Some p)
    ∧ notifications (trace o) = [photos sample_state ++ new]
    ∧ result o = Normal tt
    ∧ uploading st' = false.
Proof.
  apply (valid_batch_appends_in_order sample_env sample_state
           [mkFile "a.png" "image/png" 10; mkFile "c.webp" "image/webp" 5242880]
           sample_heap).
  - discriminate.
  - repeat constructor; simpl; (by vm_compute) || (by apply bool_decide_unpack).
  - intros [|[|k]] file Hk; simpl in Hk; [| |done];
      injection Hk as <-; by vm_compute.
Defined.

(** C3. For every selected batch: a file whose MIME type is not allowed or
    whose size exceeds 5 MiB is never uploaded, and the photo list either
    stays as it was or grows by the entries of the files that passed, so no
    excluded file contributes an entry; every excluded file writes its own
    message, which names the file, to the error slot, in selection order, so
    that after validation the slot holds the message of the last excluded
    file, and still does when the batch ends unless an upload failure
    overwrites it; and if no file passes, the handler does nothing else: no
    upload, no write to [uploading], no notification, same photo list and
    store. *)
Theorem invalid_files_excluded env st files h :
  let o := uploadFiles env st files h in
  let st' := commit st (trace o) in
  let vf := List.filter valid files in
  (∀ file,
     (file_type file ∉ allowedTypes) ∨ (file_size file > 5 * 1024 * 1024)%Z →
     (file ∉ vf) ∧ (file ∉ snd <$> uploads (trace o))
     ∧ (file ∈ files →
        ∃ m reason rest,
          rejection file = Some m ∧ m = reason +:+ file_name file +:+ rest))
  ∧ (photos st' = photos st
     ∨ (photos st' = photos st ++ seq (length h) (length vf)
        ∧ store o = h ++ imap (uploaded_photo env) vf))
  ∧ (∃ later, error_writes (trace o) = (Some <$> omap rejection files) ++ later)
  ∧ (∀ m, last (omap rejection files) = Some m →
       error (commit st (trace (filter_files validate files h))) = Some m
       ∧ (batch_ok env 0 vf → error st' = Some m))
  ∧ (vf = [] →
     trace o = validation_trace files
     ∧ uploads (trace o) = []
     ∧ uploading_writes (trace o) = []
     ∧ uploading st' = uploading st
     ∧ notifications (trace o) = []
     ∧ photos st' = photos st
     ∧ store o = h).
Proof.
  intros o st' vf.
  pose proof (validation_trace_silent files) as (Hn & Hp & Hu & Hup & He).
  pose proof (upload_loop_spec env vf 0 [] h) as (Hst & Hfiles & Hcases).
  cbn zeta in Hcases.
  assert (∀ tail,
            o = mkOutcome (Normal tt) (store (upload_loop env 0 vf [] h))
                  (validation_trace files ++ [SetUploading true]
                   ++ trace (upload_loop env 0 vf [] h) ++ tail) →
            uploads tail = [] →
            Forall (λ pf, pf.2 ∈ vf) (uploads (trace o))) as Huploads.
  { intros tail -> Htail. cbn [trace].
    rewrite !uploads_app, Hup, Htail, app_nil_r. done. }
  assert (o = mkOutcome (Normal tt) h (validation_trace files) ∧ vf = []
          ∨ ∃ tail,
              o = mkOutcome (Normal tt) (store (upload_loop env 0 vf [] h))
                    (validation_trace files ++ [SetUploading true]
                     ++ trace (upload_loop env 0 vf [] h) ++ tail)
              ∧ vf ≠ [] ∧ uploads tail = [] ∧ notifications tail = photo_writes tail
              ∧ (∀ up, result (upload_loop env 0 vf [] h) = Normal up →
                   tail = [SetPhotos (photos st ++ up);
                           OnUpload (photos st ++ up); SetUploading false])
              ∧ (∀ e, result (upload_loop env 0 vf [] h) = Throw e →
                   tail = [SetError (Some (shown_message e));
                           SetUploading false])) as Hshape.
  { subst o. rewrite uploadFiles_run. cbn zeta. fold vf.
    destruct (Nat.eqb_spec (length vf) 0) as [Hlen|Hlen].
    - left. split; [done|]. by destruct vf.
    - right. eexists. split; [reflexivity|].
      split; [by intros ->|].
      destruct (result (upload_loop env 0 vf [] h)); split_and!; try done.
      + by intros ? [= ->].
      + by intros ? [= ->]. }
  split_and!.
  - intros file Hbad.
    assert (valid file = false) as Hinvalid.
    { apply not_true_is_false. intros [? ?]%valid_spec.
      destruct Hbad; [done|lia]. }
    assert (file ∉ vf) as Hvf.
    { subst vf. rewrite list_elem_of_In, filter_In. intros [_ ?]. congruence. }
    split; [done|]. split.
    + intros ((p & f) & -> & Hin)%list_elem_of_fmap.
      apply Hvf. cbn [snd].
      assert (Forall (λ pf, pf.2 ∈ vf) (uploads (trace o))) as Hall.
      { destruct Hshape as [[-> _]|(tail & Ho & _ & Htail & _)].
        - cbn [trace]. rewrite Hup. constructor.
        - by apply (Huploads tail). }
      rewrite Forall_forall in Hall. by apply (Hall (p, f)).
    + intros _. destruct (rejection file) as [m|] eqn:Hm.
      * destruct (rejection_names_file _ _ Hm) as (reason & rest & Heq).
        by exists m, reason, rest.
      * apply valid_rejection in Hm. congruence.
  - destruct Hshape as [[-> _]|(tail & -> & _ & _ & _ & Hnormal & Hthrow)].
    + left. subst st'. cbn [trace]. by rewrite photos_commit, Hp.
    + subst st'. cbn [trace store].
      destruct (batch_trace_writes st _ _ tail Hn Hp Hu Hst) as (_ & Hp' & _).
      rewrite photos_commit, Hp'.
      destruct Hcases as [(_ & Hres & Hstore)|(j & e & fresh & _ & Hres & _)].
      * right. rewrite (Hnormal _ Hres), Hstore. done.
      * left. by rewrite (Hthrow _ Hres).
  - destruct Hshape as [[-> _]|(tail & -> & _)].
    + exists []. cbn [trace]. by rewrite app_nil_r.
    + exists (error_writes tail). cbn [trace].
      destruct (batch_trace_writes st _ _ tail Hn Hp Hu Hst) as (_ & _ & _ & ->).
      by rewrite He.
  - intros m Hlast. split.
    + rewrite filter_files_validate. cbn [trace].
      by rewrite error_commit, He, fmap_last, Hlast.
    + intros Hok. subst st'.
      destruct Hshape as [[-> _]|(tail & -> & _ & _ & _ & Hnormal & _)].
      * cbn [trace]. by rewrite error_commit, He, fmap_last, Hlast.
      * cbn [trace].
        destruct Hcases as [(_ & Hres & _)|(j & e & _ & Hff & _)];
          [|by destruct (batch_ok_first_failure env 0 vf j e)].
        destruct (batch_trace_writes st _ _ tail Hn Hp Hu Hst)
          as (_ & _ & _ & He').
        rewrite error_commit, He', (Hnormal _ Hres), He.
        change (error_writes _) with (@nil (option string)).
        by rewrite app_nil_r, fmap_last, Hlast.
  - intros Hnil.
    destruct Hshape as [[-> _]|(tail & _ & Hne & _)]; [|done].
    subst st'. cbn [trace store].
    rewrite photos_commit, uploading_commit, Hp, Hu, Hn, Hup. done.
Qed.

Lemma invalid_files_excluded_witness :
  let files := [mkFile "a.gif" "image/gif" 10;
                mkFile "huge.jpg" "image/jpeg" 6000000] in
  let o := uploadFiles sample_env sample_state files sample_heap in
  let st' := commit sample_state (trace o) in
  error st' = Some "File too large: huge.jpg (Max: 5MB)"
  ∧ uploads (trace o) = []
  ∧ uploading_writes (trace o) = []
  ∧ photos st' = photos sample_state.
Proof.
  intros files o st'.
  destruct (invalid_files_excluded sample_env sample_state files sample_heap)
    as (_ & _ & _ & Hlast & Hnone).
  destruct (Hlast "File too large: huge.jpg (Max: 5MB)" eq_refl) as [_ Herr].
  destruct (Hnone eq_refl) as (_ & Hup & Hwrites & _ & _ & Hphotos & _).
  split; [|done]. apply Herr. intros i file Hi. discriminate Hi.
Defined.

(** C4. Add-by-URL: with an empty text field the handler does nothing (list,
    error and field unchanged); with a text that does not parse as a URL it
    sets the error slot to ["Invalid URL format."] and leaves the photo list
    and the text field unchanged, without notifying the parent; with a text
    that parses it appends exactly one new entry with that url and the empty
    caption at the end of the list, notifies the parent with the full new
    list, and clears the text field. *)
Theorem add_by_url env st h :
  let o := handleAddUrl env st h in
  let st' := commit st (trace o) in
  result o = Normal tt
  ∧ (imageUrl st = "" → trace o = [] ∧ st' = st ∧ store o = h)
  ∧ (imageUrl st ≠ "" → URL_parses env (imageUrl st) = false →
     error st' = Some "Invalid URL format."
     ∧ photos st' = photos st ∧ imageUrl st' = imageUrl st
     ∧ notifications (trace o) = [] ∧ store o = h)
  ∧ (imageUrl st ≠ "" → URL_parses env (imageUrl st) = true →
     ∃ r, photos st' = photos st ++ [r]
          ∧ store o = h ++ [mkPhoto (imageUrl st) (Some "")]
          ∧ store o !! r = Some (mkPhoto (imageUrl st) (Some ""))
          ∧ notifications (trace o) = [photos st ++ [r]]
          ∧ imageUrl st' = ""
          ∧ error st' = error st).
Proof.
  intros o st'. subst st' o. unfold handleAddUrl.
  destruct (bool_decide_reflect (imageUrl st = "")) as [Hempty|Hfull].
  { split_and!; try done. }
  destruct (URL_parses env (imageUrl st)) eqn:Hurl; cbn [negb].
  - split_and!; try done. intros _ _. exists (length h).
    split_and!; try done. cbn. by rewrite lookup_app_r, Nat.sub_diag.
  - split_and!; try done.
Qed.

Lemma add_by_url_witness :
  let st := mkState false None [0; 1] "https://example.com/a.jpg" in
  let o := handleAddUrl sample_env st sample_heap in
  let st' := commit st (trace o) in
  ∃ r, photos st' = [0; 1] ++ [r]
       ∧ store o
         = sample_heap ++ [mkPhoto "https://example.com/a.jpg" (Some "")]
       ∧ store o !! r = Some (mkPhoto "https://example.com/a.jpg" (Some ""))
       ∧ notifications (trace o) = [[0; 1] ++ [r]]
       ∧ imageUrl st' = ""
       ∧ error st' = None.
Proof.
  intros st o st'.
  destruct (add_by_url sample_env st sample_heap) as (_ & _ & _ & Hadd).
  apply Hadd; [discriminate|reflexivity].
Defined.

(** C6 (the code departs from it). A drop of an item on itself does nothing:
    no state is written and the parent is not notified.  A drop outside any
    droppable target ([over] null) is not a no-op: [active.id !== over?.id]
    holds, [newIndex] is [-1], and the handler replaces the photo list and
    notifies the parent; on the list [[0; 1; 2]] with the first item dragged,
    the new list is [[1; 2; 0]]. *)
Theorem drop_outside_moves_to_end :
  (∀ st active h,
     (λ m : M unit, trace (m h)) <$> handleDragEnd st active (Some active)
     = Some [])
  ∧ (λ m : M unit,
       trace (m [mkPhoto "https://x.test/0.jpg" None;
                 mkPhoto "https://x.test/1.jpg" None;
                 mkPhoto "https://x.test/2.jpg" None]))
      <$> handleDragEnd (mkState false None [0; 1; 2] "") (photo_id 0) None
    = Some [SetPhotos [1; 2; 0]; OnUpload [1; 2; 0]].
Proof.
  split.
  - intros st active h. by rewrite handleDragEnd_same.
  - by vm_compute.
Qed.

(** C10. Seeding at mount is silent toward the parent: the mount effect
    never invokes [onUpload]; after it the photo list is the supplied list
    when that list is non-empty, and stays empty when the list is empty or
    absent; the store is untouched. *)
Theorem mount_is_silent (existingPhotos : option (list loc)) h :
  let o := mount existingPhotos h in
  let st' := commit initial_state (trace o) in
  notifications (trace o) = []
  ∧ photos st' = default [] existingPhotos
  ∧ uploading st' = false ∧ error st' = None ∧ imageUrl st' = ""
  ∧ store o = h
  ∧ result o = Normal tt.
Proof.
  intros o st'. subst st' o. unfold mount.
  destruct existingPhotos as [[|r l]|]; by cbn.
Qed.

(** ** Every handler forwards what it stores *)

Section Forwarding.
Variable env : Env.
Implicit Types (st : State) (h : Heap).

Lemma movePhoto_shape st from to m :
  movePhoto st from to = Some m → m = ret tt ∨ ∃ l, m = updatePhotos l.
Proof.
  unfold movePhoto. destruct (_ || _)%bool; [intros [= <-]; by left|].
  destruct (JsArray.splice (photos st) from 1 []) as [[|moved ?] updated];
    [done|].
  destruct (JsArray.splice updated to 0 [moved]) as [? updated'].
  intros [= <-]. right. by eexists.
Qed.

Lemma handleDragEnd_shape st active over m :
  handleDragEnd st active over = Some m →
  m = ret tt ∨ ∃ l, m = updatePhotos l.
Proof.
  unfold handleDragEnd. destruct (bool_decide _); [|intros [= <-]; by left].
  destruct (arrayMove _ _ _) as [l|]; [|done].
  intros [= <-]. right. by eexists.
Qed.

Lemma handleImageUpload_forwards st files h :
  let tr := trace (handleImageUpload env st files h) in
  notifications tr = photo_writes tr ∧ length (notifications tr) ≤ 1.
Proof.
  unfold handleImageUpload. rewrite bind_emit. cbn [trace].
  destruct files as [[|file files]|]; try (by cbn; auto).
  rewrite uploadFiles_run. cbn zeta.
  destruct (length _ =? 0).
  - cbn [trace].
    destruct (validation_trace_silent (file :: files)) as (Hn & Hp & _).
    change (SetError None :: ?t) with ([SetError None] ++ t).
    rewrite notifications_app, photo_writes_app, Hn, Hp. by cbn; auto.
  - cbn [trace].
    destruct (validation_trace_silent (file :: files)) as (Hn & Hp & Hu & _).
    destruct (upload_loop_spec env (List.filter valid (file :: files)) 0 [] h)
      as (Hst & _).
    match goal with
    | |- context [?a ++ [SetUploading true] ++ ?b ++ ?tail] =>
        destruct (batch_trace_writes st a b tail Hn Hp Hu Hst)
          as (Hn' & Hp' & _)
    end.
    change (SetError None :: ?t) with ([SetError None] ++ t).
    rewrite notifications_app, photo_writes_app, Hn', Hp'.
    by destruct (result _); cbn; auto.
Qed.

Lemma handle_forwards st ev m h :
  handle env st ev = Some m →
  let tr := trace (m h) in
  notifications tr = photo_writes tr ∧ length (notifications tr) ≤ 1.
Proof.
  destruct ev as [files|value| |index [| | |caption]|active over];
    cbn [handle].
  - intros [= <-]. apply handleImageUpload_forwards.
  - intros [= <-]. by cbn; auto.
  - intros [= <-]. unfold handleAddUrl.
    destruct (bool_decide _); [by cbn; auto|].
    by destruct (negb _); cbn; auto.
  - destruct (_ <? _); [|done]. intros [= <-]. by cbn; auto.
  - destruct (_ <? _); [|done].
    intros [->|[l ->]]%movePhoto_shape; by cbn; auto.
  - destruct (_ <? _); [|done].
    intros [->|[l ->]]%movePhoto_shape; by cbn; auto.
  - destruct (_ <? _); [|done]. intros [= <-]. unfold onCaptionChange.
    by destruct (_ !! _); cbn; auto.
  - intros [->|[l ->]]%handleDragEnd_shape; by cbn; auto.
Qed.
End Forwarding.

Section Notifying.
Variable env : Env.
Implicit Types (st : State) (h : Heap).

(** A handler is either silent (no list written, nobody notified, every
    object of the store kept, and the event is no mutation path) or it
    writes one list and hands that list to the parent (and the event is a
    mutation path). *)
Lemma handle_notifies st ev m h :
  handle env st ev = Some m →
  (notifications (trace (m h)) = [] ∧ photo_writes (trace (m h)) = []
   ∧ (∃ fresh, store (m h) = h ++ fresh) ∧ ¬ mutates env st ev)
  ∨ (∃ l, notifications (trace (m h)) = [l] ∧ photo_writes (trace (m h)) = [l]
          ∧ mutates env st ev).
Proof.
  destruct ev as [files|value| |index [| | |caption]|active over];
    cbn [handle mutates].
  - intros [= <-]. unfold handleImageUpload. rewrite bind_emit.
    cbn [trace store].
    change (notifications (SetError None :: ?t)) with (notifications t).
    change (photo_writes (SetError None :: ?t)) with (photo_writes t).
    destruct files as [[|file files]|].
    + left. split_and!; try done; [by exists []; rewrite app_nil_r|].
      by intros (fs & [= <-] & ? & _).
    + rewrite uploadFiles_run. cbn zeta.
      destruct (validation_trace_silent (file :: files)) as (Hn & Hp & Hu & _).
      destruct (Nat.eqb_spec (length (List.filter valid (file :: files))) 0)
        as [Hlen|Hlen]; cbn [trace store].
      * left. split_and!; try done; [by exists []; rewrite app_nil_r|].
        intros (fs & [= <-] & Hne & _).
        by destruct (List.filter valid (file :: files)).
      * destruct (upload_loop_spec env (List.filter valid (file :: files)) 0 [] h)
          as (Hst & _ & Hcases). cbn zeta in Hcases.
        match goal with
        | |- context [?a ++ [SetUploading true] ++ ?b ++ ?tail] =>
            destruct (batch_trace_writes st a b tail Hn Hp Hu Hst)
              as (-> & -> & _)
        end.
        destruct Hcases as [(Hok & -> & ->)|(j & e & fresh & Hff & -> & ->)].
        -- right. eexists. split_and!; try done.
           exists (file :: files). split_and!; try done.
           intros Hnil. by rewrite Hnil in Hlen.
        -- left. split_and!; try done; [by exists fresh|].
           intros (fs & [= <-] & _ & Hok).
           by destruct (batch_ok_first_failure env 0
                          (List.filter valid (file :: files)) j e).
    + left. split_and!; try done; [by exists []; rewrite app_nil_r|].
      by intros (fs & ? & _).
  - intros [= <-]. left. split_and!; try done; [by exists []; rewrite app_nil_r|].
    by intros [].
  - intros [= <-]. unfold handleAddUrl.
    destruct (bool_decide_reflect (imageUrl st = "")) as [Hempty|Hfull].
    { left. split_and!; try done; [by exists []; rewrite app_nil_r|].
      by intros [? _]. }
    destruct (URL_parses env (imageUrl st)) eqn:Hurl; cbn [negb].
    + right. by eexists.
    + left. split_and!; try done; [by exists []; rewrite app_nil_r|].
      by intros [_ ?].
  - destruct (_ <? _); [|done]. intros [= <-]. right. by eexists.
  - destruct (Nat.ltb_spec index (length (photos st))) as [Hlt|?]; [|done].
    destruct (decide (index = 0)) as [->|Hpos].
    + unfold movePhoto. cbn. intros [= <-]. left.
      split_and!; try done; [by exists []; rewrite app_nil_r|lia].
    + replace (Z.of_nat index - 1)%Z with (Z.of_nat (index - 1)) by lia.
      rewrite movePhoto_in_range by lia. intros [= <-]. right.
      eexists. split_and!; try done. lia.
  - destruct (Nat.ltb_spec index (length (photos st))) as [Hlt|?]; [|done].
    destruct (decide (S index = length (photos st))) as [Hlast|Hin].
    + unfold movePhoto.
      destruct (Z.geb_spec (Z.of_nat index + 1) (Z.of_nat (length (photos st))))
        as [_|?]; [|lia].
      rewrite orb_true_r. intros [= <-]. left.
      split_and!; try done; [by exists []; rewrite app_nil_r|lia].
    + replace (Z.of_nat index + 1)%Z with (Z.of_nat (S index)) by lia.
      rewrite movePhoto_in_range by lia. intros [= <-]. right.
      eexists. split_and!; try done. lia.
  - destruct (Nat.ltb_spec index (length (photos st))) as [Hlt|?]; [|done].
    intros [= <-]. destruct (lookup_lt_is_Some_2 _ _ Hlt) as [r Hr].
    unfold onCaptionChange. rewrite Hr. right. by eexists.
  - unfold handleDragEnd.
    destruct (bool_decide_reflect (Some active ≠ over)) as [Hne|Heq].
    + destruct (arrayMove _ _ _) as [l|]; [|done]. intros [= <-].
      right. by eexists.
    + intros [= <-]. left.
      split_and!; try done. by exists []; rewrite app_nil_r.
Qed.
End Notifying.

(** C5. On every handler of the component (file selection and upload, URL
    entry and addition, removal, move up and down, caption edit, drag end):
    the lists written to the photo state are exactly the lists passed to
    [onUpload] and there is at most one.  On every mutation path (upload
    completion, URL addition, removal, move, drag reorder, caption edit) the
    handler does call [onUpload], with exactly the photo list of the next
    render, the complete list; and it calls it on no other path, where the
    photo list and every object of the store are left as they were.  So the
    parent always holds the component's complete current list. *)
Theorem parent_receives_internal_list env st h ev m :
  handle env st ev = Some m →
  let tr := trace (m h) in
  let st' := commit st tr in
  notifications tr = photo_writes tr
  ∧ ((notifications tr = [] ∧ photos st' = photos st)
     ∨ (notifications tr = [photos st']))
  ∧ (mutates env st ev →
     notifications tr = [photos st']
     ∧ ∀ st0, photos (commit st0 tr) = photos st')
  ∧ (¬ mutates env st ev →
     notifications tr = []
     ∧ (∀ st0, photos (commit st0 tr) = photos st0)
     ∧ ∀ r p, h !! r = Some p → store (m h) !! r = Some p).
Proof.
  intros Hm tr st'. subst st' tr.
  destruct (handle_notifies env st ev m h Hm)
    as [(Hn & Hp & (fresh & Hstore) & Hnot)|(l & Hn & Hp & Hmut)].
  - assert (∀ st0, photos (commit st0 (trace (m h))) = photos st0) as Hsame.
    { intros st0. by rewrite photos_commit, Hp. }
    rewrite Hn, Hp, Hsame. split; [done|]. split; [by left|]. split; [done|].
    intros _. split; [done|]. split; [done|].
    intros r p Hr. rewrite Hstore. by apply lookup_app_l_Some.
  - assert (∀ st0, photos (commit st0 (trace (m h))) = l) as Hl.
    { intros st0. by rewrite photos_commit, Hp. }
    rewrite Hn, Hp, Hl. split; [done|]. split; [by right|]. split; [|done].
    intros _. split; [done|]. intros st0. by rewrite Hl.
Qed.

Lemma parent_receives_internal_list_witness :
  let st := mkState false None [0; 1] "" in
  let tr := trace (removePhoto st 0 sample_heap) in
  let st' := commit st tr in
  notifications tr = photo_writes tr
  ∧ ((notifications tr = [] ∧ photos st' = photos st)
     ∨ (notifications tr = [photos st']))
  ∧ (mutates sample_env st (Row 0 Remove) →
     notifications tr = [photos st']
     ∧ ∀ st0, photos (commit st0 tr) = photos st')
  ∧ (¬ mutates sample_env st (Row 0 Remove) →
     notifications tr = []
     ∧ (∀ st0, photos (commit st0 tr) = photos st0)
     ∧ ∀ r p, sample_heap !! r = Some p →
         store (removePhoto st 0 sample_heap) !! r = Some p).
Proof.
  apply (parent_receives_internal_list sample_env
           (mkState false None [0; 1] "") sample_heap (Row 0 Remove)).
  reflexivity.
Defined.

(** ** Caption edits *)

Section Caption.
Implicit Types (st : State) (h : Heap).

Lemma onCaptionChange_run st h i r caption :
  photos st !! i = Some r →
  onCaptionChange st i caption h
  = mkOutcome (Normal tt)
      (alter (λ p, mkPhoto (url p) (Some caption)) r h)
      [SetPhotos (photos st); OnUpload (photos st)].
Proof. intros Hr. unfold onCaptionChange. by rewrite Hr. Qed.
End Caption.

(** C9 (as amended). Editing the caption at an in-range index [i] writes the
    new text to the caption field of the object at position [i] and to
    nothing else: the list of references (its length and order) is the same,
    the store keeps its size, every object keeps its url, every object other
    than the edited one is unchanged, so when no object occurs at two
    positions of the list every other entry keeps its caption, and the
    parent is notified once with the full list. *)
Theorem caption_edit_frame st h i caption r p :
  photos st !! i = Some r →
  h !! r = Some p →
  let o := onCaptionChange st i caption h in
  let st' := commit st (trace o) in
  result o = Normal tt
  ∧ photos st' = photos st
  ∧ length (store o) = length h
  ∧ store o !! r = Some (mkPhoto (url p) (Some caption))
  ∧ (∀ r', url <$> store o !! r' = url <$> h !! r')
  ∧ (∀ r', r' ≠ r → store o !! r' = h !! r')
  ∧ (NoDup (photos st) →
     ∀ j, j ≠ i → entries (store o) (photos st') !! j = entries h (photos st) !! j)
  ∧ notifications (trace o) = [photos st].
Proof.
  intros Hr Hp o st'. subst st' o. rewrite (onCaptionChange_run _ _ _ _ _ Hr).
  cbn [result store trace]. change (photos (commit st _)) with (photos st).
  assert (∀ r', r' ≠ r →
            alter (λ p, mkPhoto (url p) (Some caption)) r h !! r' = h !! r')
    as Hother.
  { intros r' Hne. by apply list_lookup_alter_ne. }
  split_and!; try done.
  - apply length_alter.
  - by rewrite list_lookup_alter_eq, Hp.
  - intros r'. destruct (decide (r' = r)) as [->|Hne].
    + by rewrite list_lookup_alter_eq, Hp.
    + by rewrite Hother.
  - intros Hnodup j Hji. unfold entries. rewrite !list_lookup_fmap.
    destruct (photos st !! j) as [r'|] eqn:Hj; [|done]. cbn. f_equal.
    apply Hother. intros ->. apply Hji. by eapply NoDup_lookup.
Qed.

Lemma caption_edit_frame_witness :
  let st := mkState false None [1; 0] "" in
  let o := onCaptionChange st 0 "two" sample_heap in
  let st' := commit st (trace o) in
  store o !! 1 = Some (mkPhoto "https://x.test/1.jpg" (Some "two"))
  ∧ entries (store o) (photos st') !! 1 = entries sample_heap (photos st) !! 1
  ∧ notifications (trace o) = [[1; 0]].
Proof.
  intros st o st'.
  destruct (caption_edit_frame st sample_heap 0 "two" 1
              (mkPhoto "https://x.test/1.jpg" (Some "one")) eq_refl eq_refl)
    as (_ & _ & _ & Hnew & _ & _ & Hframe & Hnotified).
  split_and!; [done| |done].
  apply Hframe; [|done]. by apply (bool_decide_unpack _).
Defined.

(** C9 as stated fails when one object occurs at two positions of the list:
    editing the caption at position 0 also changes the caption of the entry
    at position 1. *)
Lemma caption_edit_changes_aliased_entry :
  let h := [mkPhoto "https://x.test/0.jpg" (Some "old")] in
  let st := mkState false None [0; 0] "" in
  let o := onCaptionChange st 0 "new" h in
  let st' := commit st (trace o) in
  entries h (photos st) !! 1
  = Some (Some (mkPhoto "https://x.test/0.jpg" (Some "old")))
  ∧ entries (store o) (photos st') !! 1
    = Some (Some (mkPhoto "https://x.test/0.jpg" (Some "new")))
  ∧ entries (store o) (photos st') !! 1 ≠ entries h (photos st) !! 1.
Proof. by split_and!. Qed.


(** ** Distinct objects

    The lists the component builds never hold one object twice: an object
    can occur at two positions only if the list the component was seeded
    with already held it twice. *)

Section Distinct.
Variable env : Env.
Implicit Types (st : State) (h : Heap).

Lemma splice_Permutation {A} (a : list A) start deleteCount items :
  (JsArray.splice a start deleteCount items).1
    ++ (JsArray.splice a start deleteCount items).2 ≡ₚ a ++ items.
Proof.
  unfold JsArray.splice. cbn [fst snd].
  set (s := Z.to_nat (JsArray.actual_start _ _)). set (d := Z.to_nat _).
  assert (a = take s a ++ take d (drop s a) ++ drop (s + d) a) as Ha.
  { by rewrite <- drop_drop, !take_drop. }
  set (x := take s a) in *. set (y := take d (drop s a)) in *.
  set (z := drop (s + d) a) in *. clearbody x y z.
  rewrite Ha, <- !app_assoc, (Permutation_app_swap_app y x).
  do 2 f_equiv. apply Permutation_app_comm.
Qed.

Lemma splice_removes_at_most {A} (a : list A) start items x tl :
  (JsArray.splice a start 1 items).1 = x :: tl → tl = [].
Proof.
  unfold JsArray.splice. cbn [fst]. intros Heq.
  assert (length (x :: tl) ≤ 1) as Hlen; [|by destruct tl; simpl in *; [|lia]].
  rewrite <- Heq, length_take. lia.
Qed.

Lemma splice_removes_none {A} (a : list A) start items :
  (JsArray.splice a start 0 items).1 = [].
Proof.
  unfold JsArray.splice. cbn [fst].
  replace (Z.to_nat _) with 0; [done|lia].
Qed.

Lemma arrayMove_Permutation {A} (l l' : list A) from to :
  arrayMove l from to = Some l' → l' ≡ₚ l.
Proof.
  unfold arrayMove.
  pose proof (splice_Permutation l from 1 []) as Hrem.
  destruct (JsArray.splice l from 1 []) as [[|moved tl] rest] eqn:Hs; [done|].
  assert (tl = []) as ->.
  { apply (splice_removes_at_most l from [] moved). by rewrite Hs. }
  intros [= <-]. cbn [fst snd] in Hrem. rewrite app_nil_r in Hrem.
  etrans; [|exact Hrem].
  set (dest := if (to <? 0)%Z then _ else _).
  pose proof (splice_Permutation rest dest 0 [moved]) as Hins.
  rewrite splice_removes_none, app_nil_l in Hins.
  etrans; [exact Hins|]. apply Permutation_app_comm.
Qed.

Lemma movePhoto_Permutation st from to m h :
  movePhoto st from to = Some m →
  photos (commit st (trace (m h))) ≡ₚ photos st ∧ store (m h) = h.
Proof.
  unfold movePhoto. destruct (_ || _)%bool; [by intros [= <-]|].
  pose proof (splice_Permutation (photos st) from 1 []) as Hrem.
  destruct (JsArray.splice (photos st) from 1 []) as [[|moved tl] rest] eqn:Hs;
    [done|].
  assert (tl = []) as ->.
  { apply (splice_removes_at_most (photos st) from [] moved). by rewrite Hs. }
  pose proof (splice_Permutation rest to 0 [moved]) as Hins.
  rewrite splice_removes_none in Hins. rewrite app_nil_l in Hins.
  destruct (JsArray.splice rest to 0 [moved]) as [? l'].
  intros [= <-]. split; [|done]. cbn [fst snd] in *.
  change (photos (commit st _)) with l'.
  rewrite app_nil_r in Hrem.
  etrans; [exact Hins|]. etrans; [|exact Hrem]. apply Permutation_app_comm.
Qed.


Lemma uploadFiles_photos_store st files h :
  let o := uploadFiles env st files h in
  ∃ fresh,
    store o = h ++ fresh
    ∧ (photos (commit st (trace o)) = photos st
       ∨ photos (commit st (trace o))
         = photos st ++ seq (length h) (length fresh)).
Proof.
  intros o. subst o. rewrite uploadFiles_run. cbn zeta.
  pose proof (validation_trace_silent files) as (Hn & Hp & Hu & _).
  destruct (length _ =? 0).
  - exists []. rewrite app_nil_r. split; [done|]. left.
    cbn [trace]. by rewrite photos_commit, Hp.
  - pose proof (upload_loop_spec env (List.filter valid files) 0 [] h)
      as (Hst & _ & Hcases). cbn zeta in Hcases. cbn [store trace].
    match goal with
    | |- context [?a ++ [SetUploading true] ++ ?b ++ ?tail] =>
        destruct (batch_trace_writes st a b tail Hn Hp Hu Hst) as (_ & Hp' & _)
    end.
    rewrite photos_commit, Hp'.
    destruct Hcases as [(_ & -> & ->)|(j & e & fresh & _ & -> & ->)].
    + eexists. split; [done|]. right. cbn.
      by rewrite length_imap.
    + exists fresh. split; [done|]. by left.
Qed.


End Distinct.


(** ** Removal *)

Section Removal.
Implicit Types (st : State) (h : Heap).

Lemma filter_from_keep_all {A} (p : A → nat → bool) (a : list A) : ∀ s,
  (∀ x i, s ≤ i → p x i = true) → JsArray.filter_from p s a = a.
Proof.
  induction a as [|x a IH]; intros s Hp; simpl; [done|].
  rewrite Hp by lia. f_equal. apply IH. intros y i Hi. apply Hp. lia.
Qed.

Lemma filter_from_delete {A} (a : list A) : ∀ s index,
  s ≤ index →
  JsArray.filter_from (λ _ i, negb (Z.of_nat i =? Z.of_nat index)%Z) s a
  = delete (index - s) a.
Proof.
  induction a as [|x a IH]; intros s index Hs; simpl; [done|].
  destruct (Z.eqb_spec (Z.of_nat s) (Z.of_nat index)) as [Heq|Hne]; simpl.
  - replace (index - s) with 0 by lia. simpl.
    apply filter_from_keep_all. intros y i Hi.
    apply negb_true_iff, Z.eqb_neq. lia.
  - replace (index - s) with (S (index - S s)) by lia. simpl.
    f_equal. apply IH. lia.
Qed.
End Removal.

(** X1. Removing the row at [index] stores and forwards the list without the
    entry at that position: the entries before it, then the entries after
    it, in their order; for a rendered row the list gets one entry shorter.
    Nothing else is written and no object of the store changes. *)
Theorem remove_deletes_one st h index :
  let o := removePhoto st (Z.of_nat index) h in
  let l := take index (photos st) ++ drop (S index) (photos st) in
  trace o = [SetPhotos l; OnUpload l]
  ∧ store o = h
  ∧ result o = Normal tt
  ∧ (index < length (photos st) → S (length l) = length (photos st)).
Proof.
  intros o l. subst o l. unfold removePhoto, JsArray.filter.
  rewrite filter_from_delete by lia. rewrite Nat.sub_0_r, delete_take_drop.
  split_and!; try done.
  intros Hlt. rewrite length_app, length_take, length_drop. lia.
Qed.

Lemma remove_deletes_one_witness :
  trace (removePhoto (mkState false None [7; 8; 9] "") 1 sample_heap)
  = [SetPhotos [7; 9]; OnUpload [7; 9]]
  ∧ S (length [7; 9]) = 3.
Proof.
  destruct (remove_deletes_one (mkState false None [7; 8; 9] "") sample_heap 1)
    as (Htr & _ & _ & Hlen).
  split; [exact Htr|]. apply Hlen. simpl. lia.
Defined.

(** ** The arrow buttons at the ends of the list *)

Lemma end_moves_idle env st h :
  photos st ≠ [] →
  step env st h (Row 0 MoveUp) = Some (st, h, [])
  ∧ step env st h (Row (length (photos st) - 1) MoveDown) = Some (st, h, []).
Proof.
  intros Hne. assert (0 < length (photos st)) as Hlen.
  { destruct (photos st); [done|simpl; lia]. }
  unfold step. cbn [handle].
  destruct (Nat.ltb_spec 0 (length (photos st))) as [_|?]; [|lia].
  destruct (Nat.ltb_spec (length (photos st) - 1) (length (photos st)))
    as [_|?]; [|lia].
  unfold movePhoto. split.
  - by destruct (Z.ltb_spec (Z.of_nat 0 - 1) 0) as [_|?]; [|lia].
  - destruct (Z.geb_spec (Z.of_nat (length (photos st) - 1) + 1)
                (Z.of_nat (length (photos st)))) as [_|?]; [|lia].
    by rewrite orb_true_r.
Qed.

(** X2. The up button of the first row and the down button of the last row
    do nothing at all: the render is the same, the store is the same, and
    no setter or callback is called. *)
Theorem moves_at_the_ends_do_nothing env st h :
  photos st ≠ [] →
  step env st h (Row 0 MoveUp) = Some (st, h, [])
  ∧ step env st h (Row (length (photos st) - 1) MoveDown) = Some (st, h, []).
Proof. apply end_moves_idle. Qed.

Lemma moves_at_the_ends_do_nothing_witness :
  step sample_env sample_state sample_heap (Row 0 MoveUp)
  = Some (sample_state, sample_heap, [])
  ∧ step sample_env sample_state sample_heap
      (Row (length (photos sample_state) - 1) MoveDown)
    = Some (sample_state, sample_heap, []).
Proof.
  apply (moves_at_the_ends_do_nothing sample_env sample_state sample_heap).
  discriminate.
Defined.

(** X3. The arrow buttons a row disables are exactly the ones whose handler
    would do nothing: for every rendered row, [isFirst] holds iff pressing
    up leaves no trace, and [isLast] holds iff pressing down leaves no
    trace. *)
Theorem disabled_arrows_are_the_idle_ones env st h i row :
  rows st !! i = Some row →
  ∃ up down,
    handle env st (Row (row_index row) MoveUp) = Some up
    ∧ handle env st (Row (row_index row) MoveDown) = Some down
    ∧ (isFirst row = true ↔ trace (up h) = [])
    ∧ (isLast row = true ↔ trace (down h) = []).
Proof.
  unfold rows. rewrite list_lookup_imap.
  destruct (photos st !! i) as [r|] eqn:Hr; [|done]. intros [= <-].
  pose proof (lookup_lt_Some _ _ _ Hr) as Hlt.
  cbn [row_index isFirst isLast handle].
  destruct (Nat.ltb_spec i (length (photos st))) as [_|?]; [|lia].
  destruct (decide (i = 0)) as [Hi0|Hi0];
    destruct (decide (S i = length (photos st))) as [Hlast|Hnl].
  - subst i.
    destruct (end_moves_idle env st h) as [Hup Hdown].
    { by destruct (photos st). }
    replace (length (photos st) - 1) with 0 in Hdown by lia.
    unfold step in Hup, Hdown. cbn [handle] in Hup, Hdown.
    destruct (Nat.ltb_spec 0 (length (photos st))) as [_|?]; [|lia].
    destruct (movePhoto st (Z.of_nat 0) (Z.of_nat 0 - 1)) as [up|]; [|done].
    destruct (movePhoto st (Z.of_nat 0) (Z.of_nat 0 + 1)) as [down|]; [|done].
    injection Hup as _ _ Hup. injection Hdown as _ _ Hdown.
    exists up, down. split_and!; try done.
    destruct (Z.eqb_spec (Z.of_nat 0) (Z.of_nat (length (photos st)) - 1));
      [done|lia].
  - subst i.
    destruct (end_moves_idle env st h) as [Hup _].
    { by destruct (photos st). }
    unfold step in Hup. cbn [handle] in Hup.
    destruct (Nat.ltb_spec 0 (length (photos st))) as [_|?]; [|lia].
    destruct (movePhoto st (Z.of_nat 0) (Z.of_nat 0 - 1)) as [up|]; [|done].
    injection Hup as _ _ Hup.
    replace (Z.of_nat 0 + 1)%Z with (Z.of_nat 1) by lia.
    rewrite movePhoto_in_range by lia.
    exists up, (updatePhotos (remove_insert 0 1 (photos st))).
    split_and!; try done.
    destruct (Z.eqb_spec (Z.of_nat 0) (Z.of_nat (length (photos st)) - 1));
      [lia|done].
  - destruct (end_moves_idle env st h) as [_ Hdown].
    { by destruct (photos st). }
    replace (length (photos st) - 1) with i in Hdown by lia.
    unfold step in Hdown. cbn [handle] in Hdown.
    destruct (Nat.ltb_spec i (length (photos st))) as [_|?]; [|lia].
    destruct (movePhoto st (Z.of_nat i) (Z.of_nat i + 1)) as [down|]; [|done].
    injection Hdown as _ _ Hdown.
    replace (Z.of_nat i - 1)%Z with (Z.of_nat (i - 1)) by lia.
    rewrite movePhoto_in_range by lia.
    exists (updatePhotos (remove_insert i (i - 1) (photos st))), down.
    split_and!; try done.
    + by destruct (Nat.eqb_spec i 0).
    + destruct (Z.eqb_spec (Z.of_nat i) (Z.of_nat (length (photos st)) - 1));
        [done|lia].
  - replace (Z.of_nat i - 1)%Z with (Z.of_nat (i - 1)) by lia.
    replace (Z.of_nat i + 1)%Z with (Z.of_nat (S i)) by lia.
    rewrite !movePhoto_in_range by lia.
    eexists _, _. split_and!; try done.
    + by destruct (Nat.eqb_spec i 0).
    + destruct (Z.eqb_spec (Z.of_nat i) (Z.of_nat (length (photos st)) - 1));
        [lia|done].
Qed.

Lemma disabled_arrows_are_the_idle_ones_witness :
  ∃ up down,
    handle sample_env sample_state (Row 1 MoveUp) = Some up
    ∧ handle sample_env sample_state (Row 1 MoveDown) = Some down
    ∧ (false = true ↔ trace (up sample_heap) = [])
    ∧ (true = true ↔ trace (down sample_heap) = []).
Proof.
  apply (disabled_arrows_are_the_idle_ones sample_env sample_state sample_heap
           1 (mkRow (photo_id 1) 1 1 false true)).
  reflexivity.
Defined.

(** X4. For every row that has a row below it, pressing down on it and then
    up on the row below leads back to the original render. *)
Theorem move_down_then_up_restores env st h index :
  S index < length (photos st) →
  steps env st h [Row index MoveDown; Row (S index) MoveUp] = Some (st, h).
Proof.
  intros Hlt.
  destruct (split_forward (photos st) index (S index))
    as (a & x & b & c & Hl & Ha & Hb); [lia|done|].
  destruct b as [|y [|??]]; simpl in Hb; try lia. subst index.
  pose proof (remove_insert_forward a x [y] c) as Hdown.
  pose proof (remove_insert_backward a [y] x c) as Hup.
  cbn [length app] in Hup, Hdown. rewrite Nat.add_1_r in Hdown, Hup.
  cbn [steps]. rewrite step_move_down by done. cbn [mbind option_bind].
  rewrite Hl. cbn [app]. rewrite Hdown.
  rewrite step_move_up
    by (cbn [photos with_photos]; rewrite ?length_app; simpl; lia).
  cbn [mbind option_bind photos with_photos steps].
  replace (S (length a) - 1) with (length a) by lia. rewrite Hup.
  rewrite <- (with_photos_same st) at 2. by rewrite Hl.
Qed.

Lemma move_down_then_up_restores_witness :
  steps sample_env (mkState false None [4; 5; 6] "") []
    [Row 0 MoveDown; Row 1 MoveUp]
  = Some (mkState false None [4; 5; 6] "", []).
Proof.
  apply (move_down_then_up_restores sample_env
           (mkState false None [4; 5; 6] "") [] 0).
  simpl. lia.
Defined.

(** ** Reordering *)

(** X5. Whatever the indices and ids, an arrow button or a drag only
    permutes the photo list: when the handler stores a list, it has the
    same entries as before, none lost and none duplicated, so the same
    length; the store is untouched. *)
Theorem reorder_is_permutation env st h ev st' h' tr :
  is_reorder ev = true →
  step env st h ev = Some (st', h', tr) →
  photos st' ≡ₚ photos st
  ∧ length (photos st') = length (photos st)
  ∧ h' = h.
Proof.
  intros Hev. unfold step.
  destruct (handle env st ev) as [m|] eqn:Hm; [|done].
  cbn [mbind option_bind]. intros [= <- <- <-].
  assert (photos (commit st (trace (m h))) ≡ₚ photos st ∧ store (m h) = h)
    as [Hperm Hstore].
  { destruct ev as [| | |index [| | |]|active over]; try done;
      cbn [handle] in Hm.
    - destruct (_ <? _); [|done]. by eapply movePhoto_Permutation.
    - destruct (_ <? _); [|done]. by eapply movePhoto_Permutation.
    - unfold handleDragEnd in Hm. destruct (bool_decide _).
      + destruct (arrayMove _ _ _) as [l|] eqn:Hmove; [|done].
        injection Hm as <-. apply arrayMove_Permutation in Hmove. done.
      + by injection Hm as <-. }
  split_and!; [done| |done]. by rewrite Hperm.
Qed.

Lemma reorder_is_permutation_witness :
  photos (mkState false None [2; 0; 1] "") ≡ₚ [0; 1; 2]
  ∧ length (photos (mkState false None [2; 0; 1] "")) = 3
  ∧ sample_heap = sample_heap.
Proof.
  apply (reorder_is_permutation sample_env (mkState false None [0; 1; 2] "")
           sample_heap (DragEnd (photo_id 2) (Some (photo_id 0)))
           (mkState false None [2; 0; 1] "") sample_heap
           [SetPhotos [2; 0; 1]; OnUpload [2; 0; 1]]);
    reflexivity.
Defined.

Section DropOutside.
Implicit Types (st : State) (h : Heap).

Lemma arrayMove_to_end {A} (l : list A) i x :
  l !! i = Some x →
  arrayMove l (Z.of_nat i) (-1) = Some (take i l ++ drop (S i) l ++ [x]).
Proof.
  intros Hx. pose proof (lookup_lt_Some _ _ _ Hx) as Hlt.
  unfold arrayMove. cbn [Z.ltb Z.compare].
  rewrite (splice_remove_one _ _ _ Hx).
  replace (Z.of_nat (length l) + -1)%Z with (Z.of_nat (length (delete i l)))
    by (rewrite length_delete by eauto; lia).
  rewrite splice_insert_one by done. cbn [snd].
  rewrite take_ge, drop_ge by done.
  by rewrite delete_take_drop, <- app_assoc.
Qed.
End DropOutside.

(** X6. A drag that ends outside every droppable target ([over] null) is
    handled like a drop on the last position: the dragged entry is taken out
    and appended at the end of the list, and the parent is notified with
    that list. *)
Theorem drop_outside_sends_to_end env st h i x :
  photos st !! i = Some x →
  let l := take i (photos st) ++ drop (S i) (photos st) ++ [x] in
  step env st h (DragEnd (photo_id i) None)
  = Some (with_photos st l, h, [SetPhotos l; OnUpload l]).
Proof.
  intros Hx l. pose proof (lookup_lt_Some _ _ _ Hx) as Hlt.
  unfold step. cbn [handle]. unfold handleDragEnd.
  rewrite bool_decide_eq_true_2 by done.
  rewrite findIndex_active, findIndex_no_over by done.
  by rewrite (arrayMove_to_end _ _ _ Hx).
Qed.

Lemma drop_outside_sends_to_end_witness :
  step sample_env (mkState false None [4; 5; 6] "") sample_heap
    (DragEnd (photo_id 1) None)
  = Some (mkState false None [4; 6; 5] "", sample_heap,
          [SetPhotos [4; 6; 5]; OnUpload [4; 6; 5]]).
Proof.
  apply (drop_outside_sends_to_end sample_env
           (mkState false None [4; 5; 6] "") sample_heap 1 5).
  reflexivity.
Defined.

(** X7. The sortable ids of a render identify its rows: there is one id per
    photo, no id occurs twice, and the index [handleDragEnd] recovers from
    the id of the row at position [i], as the dragged item or as the drop
    target, is [i]. *)
Theorem sortable_ids_identify_rows st :
  length (sortable_items st) = length (photos st)
  ∧ NoDup (sortable_items st)
  ∧ ∀ i id, sortable_items st !! i = Some id →
      JsArray.findIndex (λ _ k, bool_decide (photo_id k = id)) (photos st)
      = Z.of_nat i
      ∧ JsArray.findIndex (λ _ k, bool_decide (Some (photo_id k) = Some id))
          (photos st)
        = Z.of_nat i.
Proof.
  unfold sortable_items. split_and!.
  - apply length_imap.
  - apply NoDup_alt. intros i j id. rewrite !list_lookup_imap.
    destruct (photos st !! i), (photos st !! j); try done.
    cbn. intros Hi%(inj Some) Hj%(inj Some).
    apply (inj photo_id). by rewrite Hi, Hj.
  - intros i id. rewrite list_lookup_imap.
    destruct (photos st !! i) as [r|] eqn:Hr; [|done].
    cbn. intros <-%(inj Some).
    pose proof (lookup_lt_Some _ _ _ Hr) as Hlt.
    by rewrite findIndex_active, findIndex_over.
Qed.

Lemma sortable_ids_identify_rows_witness :
  JsArray.findIndex (λ _ k, bool_decide (photo_id k = "photo-1"))
    (photos sample_state) = 1%Z
  ∧ JsArray.findIndex
      (λ _ k, bool_decide (Some (photo_id k) = Some "photo-1"))
      (photos sample_state) = 1%Z.
Proof.
  destruct (sortable_ids_identify_rows sample_state) as (_ & _ & Hidx).
  apply (Hidx 1 "photo-1"). reflexivity.
Defined.

(** ** File selection *)

Section Selection.
Variable env : Env.
Implicit Types (st : State) (h : Heap) (files : list File).

Lemma rejections_nil files :
  omap rejection files = [] ↔ Forall (λ file, valid file = true) files.
Proof.
  induction files as [|file files IH]; [done|]. cbn [omap list_omap].
  pose proof (valid_rejection file) as Hv.
  destruct (rejection file) as [m|] eqn:Hm.
  - split; [done|]. intros [Hvalid _]%Forall_cons.
    by apply Hv in Hvalid.
  - rewrite IH, Forall_cons. split; [|by intros [_ ?]].
    intros ?. split; [by apply Hv|done].
Qed.

Lemma last_error_write {A} (l : list A) :
  default None (last (Some <$> l)) = None ↔ l = [].
Proof.
  rewrite fmap_last. destruct (last l) as [x|] eqn:Hlast; cbn.
  - split; [done|]. intros ->. done.
  - split; [|done]. intros _. by apply last_None.
Qed.

Lemma error_after_clearing st t :
  error (commit st (SetError None :: t)) = default None (last (error_writes t)).
Proof.
  rewrite error_commit. unfold error_writes at 1. cbn [omap list_omap].
  rewrite last_cons. fold (error_writes t). by destruct (last _).
Qed.

Lemma selection_error st files h :
  let o := uploadFiles env st files h in
  files ≠ [] →
  default None (last (error_writes (trace o))) = None
  ↔ Forall (λ file, valid file = true) files ∧ batch_ok env 0 files.
Proof.
  intros o Hne. subst o. rewrite uploadFiles_run. cbn zeta.
  pose proof (validation_trace_silent files) as (Hn & Hp & Hu & _ & He).
  destruct (Nat.eqb_spec (length (List.filter valid files)) 0) as [Hlen|Hlen].
  - cbn [trace]. rewrite He, last_error_write, rejections_nil.
    split; [|by intros [? _]]. intros Hall.
    rewrite (filter_valid_all _ Hall) in Hlen. by destruct files.
  - cbn [trace].
    pose proof (upload_loop_spec env (List.filter valid files) 0 [] h)
      as (Hst & _ & Hcases). cbn zeta in Hcases.
    match goal with
    | |- context [?a ++ [SetUploading true] ++ ?b ++ ?tail] =>
        destruct (batch_trace_writes st a b tail Hn Hp Hu Hst)
          as (_ & _ & _ & ->)
    end.
    rewrite He.
    destruct Hcases as [(Hok & -> & _)|(j & e & fresh & Hff & -> & _)].
    + change (error_writes _) with (@nil (option string)).
      rewrite app_nil_r, last_error_write, rejections_nil.
      split.
      * intros Hall. split; [done|].
        by rewrite (filter_valid_all _ Hall) in Hok.
      * by intros [? _].
    + change (error_writes _) with [Some (shown_message e)].
      rewrite last_snoc. split; [done|]. intros [Hall Hok].
      rewrite (filter_valid_all _ Hall) in Hff.
      by destruct (batch_ok_first_failure env 0 files j e).
Qed.
End Selection.

(** X8. A file selection first clears the error slot, and the slot is still
    empty after the batch exactly when at least one file was selected, every
    selected file passed validation, and every upload and public-URL
    retrieval went through.  An empty selection, a rejected file or a failed
    upload each leave a message. *)
Theorem selection_leaves_no_error_iff env st h files :
  let o := handleImageUpload env st files h in
  error (commit st (trace o)) = None
  ↔ ∃ fs, files = Some fs ∧ fs ≠ []
          ∧ Forall (λ file, valid file = true) fs ∧ batch_ok env 0 fs.
Proof.
  intros o. subst o. unfold handleImageUpload. rewrite bind_emit.
  cbn [trace]. rewrite error_after_clearing.
  destruct files as [[|file files]|].
  - split; [done|]. by intros (fs & [= <-] & ? & _).
  - rewrite selection_error by done. split.
    + intros [? ?]. by exists (file :: files).
    + by intros (fs & [= <-] & _ & ? & ?).
  - split; [done|]. by intros (fs & ? & _).
Qed.

Lemma selection_leaves_no_error_iff_witness :
  error (commit (mkState false (Some "stale") [0; 1] "")
           (trace (handleImageUpload sample_env
                     (mkState false (Some "stale") [0; 1] "")
                     (Some [mkFile "a.png" "image/png" 10]) sample_heap)))
  = None.
Proof.
  apply (selection_leaves_no_error_iff sample_env
           (mkState false (Some "stale") [0; 1] "") sample_heap
           (Some [mkFile "a.png" "image/png" 10])).
  exists [mkFile "a.png" "image/png" 10]. split_and!; try done.
  - by repeat constructor.
  - intros [|i] file Hi; [|done]. injection Hi as <-. by vm_compute.
Defined.

(** ** The order of the storage calls *)

Section StorageCalls.
Variable env : Env.
Implicit Types (h : Heap) (vf : list File).

Lemma upload_loop_trace vf : ∀ k acc h,
  let o := upload_loop env k vf acc h in
  (batch_ok env k vf → trace o = storage_calls env k vf)
  ∧ (∀ j e, first_failure env k vf j e →
       uploads (trace o)
       = imap (λ i file, (file_path env (k + i) file, file)) (take (S j) vf)).
Proof.
  induction vf as [|file rest IH]; intros k acc h o.
  - split; [done|]. intros j e [(f & Hf & _) _]. done.
  - destruct (file_failure env k file) as [e0|] eqn:He0.
    + destruct (upload_loop_cons_fail env k file rest acc h e0 He0)
        as (tr & Ho & _ & Hup).
      subst o. rewrite Ho. cbn [trace]. split.
      * intros Hok. specialize (Hok 0 file eq_refl).
        rewrite Nat.add_0_r in Hok. congruence.
      * intros [|j] e [_ Hearlier].
        -- rewrite Hup. cbn. by rewrite Nat.add_0_r.
        -- specialize (Hearlier 0 file (Nat.lt_0_succ j) eq_refl).
           rewrite Nat.add_0_r in Hearlier. congruence.
    + subst o. rewrite (upload_loop_cons_ok env k file rest acc h He0).
      cbn zeta. cbn [trace].
      destruct (IH (S k) (acc ++ [length h])
                  (h ++ [uploaded_photo env k file])) as [IHok IHfail].
      split.
      * intros Hok. rewrite IHok.
        -- unfold storage_calls. cbn [imap mjoin list_join app].
           rewrite Nat.add_0_r. do 3 f_equal. apply imap_ext.
           intros i f _. cbn. by replace (k + S i) with (S k + i) by lia.
        -- intros i f Hf. replace (S k + i) with (k + S i) by lia.
           by apply (Hok (S i)).
      * intros [|j] e [(f & Hf & Hfe) Hearlier].
        -- injection Hf as <-. rewrite Nat.add_0_r in Hfe. congruence.
        -- change (uploads (StorageUpload ?p ?f0 :: StorageGetPublicUrl ?q :: ?t))
             with ((p, f0) :: uploads t).
           rewrite (IHfail j e).
           ++ cbn [take imap]. rewrite Nat.add_0_r. f_equal.
              apply imap_ext. intros i f' _. cbn.
              by replace (k + S i) with (S k + i) by lia.
           ++ split.
              ** exists f. by replace (S k + j) with (k + S j) by lia.
              ** intros i' f' Hi' Hf'.
                 replace (S k + i') with (k + S i') by lia.
                 apply (Hearlier (S i')); [lia|done].
Qed.
End StorageCalls.

(** X9. Within a batch the storage service is called file by file, in
    selection order: when every file goes through, the calls are, for each
    valid file in turn, its upload followed by its public-URL request under
    the same key; when a file goes wrong, the files after the first failing
    one are never uploaded. *)
Theorem storage_calls_in_order env st files h :
  let vf := List.filter valid files in
  (batch_ok env 0 vf → trace (upload_loop env 0 vf [] h) = storage_calls env 0 vf)
  ∧ (∀ j e, first_failure env 0 vf j e →
       uploads (trace (uploadFiles env st files h))
       = imap (λ k file, (file_path env k file, file)) (take (S j) vf)).
Proof.
  intros vf.
  destruct (upload_loop_trace env vf 0 [] h) as [Hok Hfail]. split; [done|].
  intros j e Hff. rewrite uploadFiles_run. cbn zeta. fold vf.
  destruct (Nat.eqb_spec (length vf) 0) as [Hlen|_].
  { destruct Hff as [(f & Hf%lookup_lt_Some & _) _]. lia. }
  cbn [trace]. rewrite !uploads_app, (Hfail j e Hff).
  destruct (validation_trace_silent files) as (_ & _ & _ & -> & _).
  cbn [app]. change (uploads [SetUploading true]) with (@nil (string * File)).
  by destruct (result _); rewrite app_nil_r.
Qed.

Lemma storage_calls_in_order_witness :
  uploads (trace (uploadFiles sample_env sample_state
                    [mkFile "a.png" "image/png" 10;
                     mkFile "b.png" "image/png" 20;
                     mkFile "c.png" "image/png" 30] sample_heap))
  = [("id0_a.png", mkFile "a.png" "image/png" 10);
     ("id1_b.png", mkFile "b.png" "image/png" 20)].
Proof.
  destruct (storage_calls_in_order sample_env sample_state
              [mkFile "a.png" "image/png" 10;
               mkFile "b.png" "image/png" 20;
               mkFile "c.png" "image/png" 30] sample_heap) as [_ Hfail].
  apply (Hfail 1 (ErrorObj "quota exceeded")). split.
  - eexists. split; reflexivity.
  - intros [|i'] file Hi' Hf; [|lia]. injection Hf as <-. reflexivity.
Defined.

(** ** What one event can do to the list and to the store *)

Section StepCases.
Variable env : Env.
Implicit Types (st : State) (h : Heap).

(** The four kinds of events: those that can only append new objects, those
    that only permute, a removal, and a caption edit. *)
Lemma step_cases st h ev st' h' tr :
  step env st h ev = Some (st', h', tr) →
  (∃ fresh,
     h' = h ++ fresh
     ∧ (photos st' = photos st
        ∨ photos st' = photos st ++ seq (length h) (length fresh)))
  ∨ (h' = h ∧ photos st' ≡ₚ photos st)
  ∨ (∃ i, ev = Row i Remove ∧ h' = h ∧ photos st' = delete i (photos st))
  ∨ (∃ i c r,
       ev = Row i (CaptionChange c) ∧ photos st !! i = Some r
       ∧ photos st' = photos st
       ∧ h' = alter (λ p, mkPhoto (url p) (Some c)) r h).
Proof.
  unfold step. destruct (handle env st ev) as [m|] eqn:Hm; [|done].
  cbn [mbind option_bind]. intros [= <- <- <-].
  destruct ev as [files|value| |index [| | |caption]|active over];
    cbn [handle] in Hm.
  - left. injection Hm as <-. unfold handleImageUpload. rewrite bind_emit.
    cbn [store trace].
    assert (∀ t, photos (commit st (SetError None :: t)) = photos (commit st t))
      as Hskip by (intros t; by rewrite !photos_commit).
    rewrite Hskip.
    destruct files as [[|file files]|];
      [exists []; rewrite app_nil_r; by split; [|left]|
      |exists []; rewrite app_nil_r; by split; [|left]].
    apply uploadFiles_photos_store.
  - left. injection Hm as <-. exists []. rewrite app_nil_r. by split; [|left].
  - left. injection Hm as <-. unfold handleAddUrl.
    destruct (bool_decide _);
      [exists []; rewrite app_nil_r; by split; [|left]|].
    destruct (negb _);
      [exists []; rewrite app_nil_r; by split; [|left]|].
    eexists [_]. split; [done|]. by right.
  - right. right. left. destruct (_ <? _); [|done]. injection Hm as <-.
    exists index. split; [done|]. split; [done|].
    cbn. unfold JsArray.filter. rewrite filter_from_delete by lia.
    by rewrite Nat.sub_0_r.
  - right. left. destruct (_ <? _); [|done].
    destruct (movePhoto_Permutation _ _ _ _ h Hm) as [Hperm ->]. done.
  - right. left. destruct (_ <? _); [|done].
    destruct (movePhoto_Permutation _ _ _ _ h Hm) as [Hperm ->]. done.
  - right. right. right.
    destruct (Nat.ltb_spec index (length (photos st))) as [Hlt|?]; [|done].
    injection Hm as <-.
    destruct (lookup_lt_is_Some_2 _ _ Hlt) as [r Hr].
    exists index, caption, r. rewrite (onCaptionChange_run _ _ _ _ _ Hr). done.
  - right. left. unfold handleDragEnd in Hm. destruct (bool_decide _).
    + destruct (arrayMove _ _ _) as [l|] eqn:Hmove; [|done].
      injection Hm as <-. apply arrayMove_Permutation in Hmove. done.
    + by injection Hm as <-.
Qed.

Lemma handle_uploading_writes st ev m h :
  handle env st ev = Some m →
  uploading_writes (trace (m h)) = []
  ∨ uploading_writes (trace (m h)) = [true; false].
Proof.
  destruct ev as [files|value| |index [| | |caption]|active over];
    cbn [handle].
  - intros [= <-]. unfold handleImageUpload. rewrite bind_emit. cbn [trace].
    change (uploading_writes (SetError None :: ?t)) with (uploading_writes t).
    destruct files as [[|file files]|]; try by left.
    rewrite uploadFiles_run. cbn zeta.
    destruct (validation_trace_silent (file :: files)) as (Hn & Hp & Hu & _).
    destruct (length _ =? 0); cbn [trace]; [by left|].
    destruct (upload_loop_spec env (List.filter valid (file :: files)) 0 [] h)
      as (Hst & _).
    match goal with
    | |- context [?a ++ [SetUploading true] ++ ?b ++ ?tail] =>
        destruct (batch_trace_writes st a b tail Hn Hp Hu Hst)
          as (_ & _ & -> & _)
    end.
    right. by destruct (result _).
  - intros [= <-]. by left.
  - intros [= <-]. unfold handleAddUrl.
    destruct (bool_decide _); [by left|]. destruct (negb _); by left.
  - destruct (_ <? _); [|done]. intros [= <-]. by left.
  - destruct (_ <? _); [|done].
    intros [->|[l ->]]%movePhoto_shape; by left.
  - destruct (_ <? _); [|done].
    intros [->|[l ->]]%movePhoto_shape; by left.
  - destruct (_ <? _); [|done]. intros [= <-]. unfold onCaptionChange.
    destruct (_ !! _); by left.
  - intros [->|[l ->]]%handleDragEnd_shape; by left.
Qed.

End StepCases.

(** X10. Every handler that sets [uploading] to true sets it back to false
    before it completes, whatever the storage service answers: over the
    whole run of a handler, the asynchronous batch included, the writes to
    the flag are either none, or exactly [true] followed by [false]; and the
    flag is raised only when a file passed validation.  (This is about the
    writes of one handler in order; while a batch is in flight the render
    shows [uploading = true].) *)
Theorem uploading_is_reset env st h ev m :
  handle env st ev = Some m →
  let tr := trace (m h) in
  (uploading_writes tr = [] ∨ uploading_writes tr = [true; false])
  ∧ (uploading_writes tr = [true; false] →
     ∃ files, ev = FileInputChange (Some files)
              ∧ List.filter valid files ≠ []
              ∧ ∀ st0, uploading (commit st0 tr) = false).
Proof.
  intros Hm tr. subst tr. split; [by eapply handle_uploading_writes|].
  intros Hraised.
  assert (∀ st0, uploading (commit st0 (trace (m h))) = false) as Hreset.
  { intros st0. by rewrite uploading_commit, Hraised. }
  destruct ev as [files|value| |index [| | |caption]|active over];
    cbn [handle] in Hm.
  - injection Hm as <-. unfold handleImageUpload in *.
    rewrite bind_emit in Hraised, Hreset. cbn [trace] in Hraised.
    change (uploading_writes (SetError None :: ?t)) with (uploading_writes t)
      in Hraised.
    destruct files as [[|file files]|]; try done.
    exists (file :: files). split; [done|]. split; [|done].
    intros Hnil. rewrite uploadFiles_run in Hraised. cbn zeta in Hraised.
    rewrite Hnil in Hraised. cbn [length Nat.eqb trace] in Hraised.
    destruct (validation_trace_silent (file :: files)) as (_ & _ & Hu & _).
    by rewrite Hu in Hraised.
  - by injection Hm as <-.
  - injection Hm as <-. unfold handleAddUrl in Hraised.
    destruct (bool_decide _); [done|]. by destruct (negb _).
  - destruct (_ <? _); [|done]. by injection Hm as <-.
  - destruct (_ <? _); [|done].
    by apply movePhoto_shape in Hm as [->|[l ->]].
  - destruct (_ <? _); [|done].
    by apply movePhoto_shape in Hm as [->|[l ->]].
  - destruct (_ <? _); [|done]. injection Hm as <-.
    unfold onCaptionChange in Hraised. by destruct (_ !! _).
  - by apply handleDragEnd_shape in Hm as [->|[l ->]].
Qed.

Lemma uploading_is_reset_witness :
  let tr := trace (handleImageUpload sample_env sample_state
                     (Some [mkFile "b.png" "image/png" 20]) sample_heap) in
  (uploading_writes tr = [] ∨ uploading_writes tr = [true; false])
  ∧ (uploading_writes tr = [true; false] →
     ∃ files, FileInputChange (Some [mkFile "b.png" "image/png" 20])
              = FileInputChange (Some files)
              ∧ List.filter valid files ≠ []
              ∧ ∀ st0, uploading (commit st0 tr) = false).
Proof.
  apply (uploading_is_reset sample_env sample_state sample_heap
           (FileInputChange (Some [mkFile "b.png" "image/png" 20]))).
  reflexivity.
Defined.



(** X12. Objects of the store are never dropped and never get another url:
    after any event every object that was in the store is still there with
    the same url, and unless the event is a caption edit it is unchanged
    altogether. *)
Theorem store_objects_are_kept env st h ev st' h' tr r p :
  step env st h ev = Some (st', h', tr) →
  h !! r = Some p →
  ∃ p', h' !! r = Some p' ∧ url p' = url p
        ∧ ((∀ i c, ev ≠ Row i (CaptionChange c)) → p' = p).
Proof.
  intros Hstep Hp.
  destruct (step_cases env _ _ _ _ _ _ Hstep)
    as [(fresh & -> & _)|[[-> _]|[(i & _ & -> & _)|(i & c & r' & -> & _ & _ & ->)]]].
  - exists p. by rewrite (lookup_app_l_Some _ _ _ _ Hp).
  - by exists p.
  - by exists p.
  - destruct (decide (r = r')) as [->|Hne].
    + exists (mkPhoto (url p) (Some c)).
      rewrite list_lookup_alter_eq, Hp. split_and!; try done.
      intros Hnot. by destruct (Hnot i c).
    + exists p. by rewrite list_lookup_alter_ne.
Qed.

Lemma store_objects_are_kept_witness :
  ∃ p', (sample_heap ++ [mkPhoto "https://example.com/a.jpg" (Some "")]) !! 1
        = Some p'
        ∧ url p' = "https://x.test/1.jpg"
        ∧ ((∀ i c, AddClick ≠ Row i (CaptionChange c)) →
           p' = mkPhoto "https://x.test/1.jpg" (Some "one")).
Proof.
  apply (store_objects_are_kept sample_env
           (mkState false None [0; 1] "https://example.com/a.jpg") sample_heap
           AddClick
           (mkState false None [0; 1; 2] "")
           (sample_heap ++ [mkPhoto "https://example.com/a.jpg" (Some "")])
           [SetPhotos [0; 1; 2]; OnUpload [0; 1; 2]; SetImageUrl ""]
           1 (mkPhoto "https://x.test/1.jpg" (Some "one")));
    reflexivity.
Defined.

(** X13. No handler other than removal stores a list that lacks an entry of
    the render it was created in.  For the synchronous handlers (URL entry
    and addition, moves, caption edits, drags) that render is the current
    one, so after the event the photo list holds every entry it held
    before, possibly reordered, possibly with a new entry.  For a file
    selection, every list the batch stores, when it completes, is the list
    of the render in which the batch started followed by new entries. *)
Theorem only_removal_drops_entries env st h ev :
  (∀ i, ev ≠ Row i Remove) →
  ((∀ files, ev ≠ FileInputChange files) →
   ∀ st' h' tr, step env st h ev = Some (st', h', tr) →
     ∃ new, photos st' ≡ₚ photos st ++ new)
  ∧ (∀ m l, handle env st ev = Some m → l ∈ photo_writes (trace (m h)) →
       ∃ new, l ≡ₚ photos st ++ new
              ∧ ((∃ files, ev = FileInputChange files) → l = photos st ++ new)).
Proof.
  intros Hev.
  assert (∀ st' h' tr, step env st h ev = Some (st', h', tr) →
            ∃ new, photos st' ≡ₚ photos st ++ new
                   ∧ ((∃ files, ev = FileInputChange files) →
                      photos st' = photos st ++ new)) as Hstep.
  { intros st' h' tr Hs.
    assert ((∃ files, ev = FileInputChange files) →
            ∃ fresh : Heap,
              photos st' = photos st
              ∨ photos st' = photos st ++ seq (length h) (length fresh))
      as Hupload.
    { intros [files ->]. unfold step in Hs.
      change (handle env st (FileInputChange files))
        with (Some (handleImageUpload env st files)) in Hs.
      cbn [mbind option_bind] in Hs. cbn zeta in Hs.
      injection Hs as <- <- <-. unfold handleImageUpload.
      destruct files as [[|file files]|];
        [by exists []; left| |by exists []; left].
      destruct (uploadFiles_photos_store env st (file :: files) h)
        as (fresh & _ & Hphotos).
      exists fresh. rewrite photos_commit in Hphotos |- *. exact Hphotos. }
    destruct (step_cases env _ _ _ _ _ _ Hs)
      as [(fresh & _ & [Heq|Heq])|[[_ Hperm]|[(i & -> & _)|(i & c & r' & -> & _ & Heq & _)]]].
    - exists []. rewrite app_nil_r, Heq. by split.
    - eexists. rewrite Heq. by split.
    - exists []. rewrite app_nil_r. split; [done|].
      intros Hfile. destruct (Hupload Hfile) as [fresh [Heq|Heq]].
      + done.
      + assert (length (photos st') = length (photos st)) as Hlen
          by by rewrite Hperm.
        rewrite Heq, length_app, length_seq in Hlen.
        destruct fresh; [|simpl in Hlen; lia].
        by rewrite Heq, app_nil_r.
    - by destruct (Hev i).
    - exists []. rewrite app_nil_r, Heq. split; [done|]. by intros [? [=]]. }
  split.
  - intros _ st' h' tr Hs. destruct (Hstep st' h' tr Hs) as (new & ? & _).
    by exists new.
  - intros m l Hm Hl.
    assert (l = photos (commit st (trace (m h)))) as ->.
    { destruct (handle_forwards env st ev m h Hm) as [Heq Hlen].
      rewrite photos_commit. rewrite Heq in Hlen.
      destruct (photo_writes (trace (m h))) as [|l0 [|??]]; cbn in *;
        [by apply elem_of_nil in Hl|by apply list_elem_of_singleton in Hl|lia]. }
    apply (Hstep _ (store (m h)) (trace (m h))).
    unfold step. by rewrite Hm.
Qed.

Lemma only_removal_drops_entries_witness :
  ∃ new, photos (mkState false None [1; 0] "") ≡ₚ [0; 1] ++ new.
Proof.
  destruct (only_removal_drops_entries sample_env sample_state sample_heap
              (Row 0 MoveDown)) as [Hsync _].
  { intros i. discriminate. }
  apply (Hsync (λ files, ltac:(discriminate))
           (mkState false None [1; 0] "") sample_heap
           [SetPhotos [1; 0]; OnUpload [1; 0]]).
  reflexivity.
Defined.

(** X14. Typing a parsable URL and pressing Add appends one entry for that
    URL and empties the field, leaving the upload flag and the error slot as
    they were; removing the last row afterwards gives back the photo list
    from before. *)
Theorem typed_url_is_added_and_removable env st h s :
  s ≠ "" →
  URL_parses env s = true →
  steps env st h [UrlInputChange s; AddClick]
  = Some (mkState (uploading st) (error st) (photos st ++ [length h]) "",
          h ++ [mkPhoto s (Some "")])
  ∧ steps env st h
      [UrlInputChange s; AddClick; Row (length (photos st)) Remove]
    = Some (mkState (uploading st) (error st) (photos st) "",
            h ++ [mkPhoto s (Some "")]).
Proof.
  intros Hs Hurl.
  assert (step env st h (UrlInputChange s)
          = Some (mkState (uploading st) (error st) (photos st) s, h,
                  [SetImageUrl s])) as Htype by done.
  assert (step env (mkState (uploading st) (error st) (photos st) s) h AddClick
          = Some (mkState (uploading st) (error st) (photos st ++ [length h]) "",
                  h ++ [mkPhoto s (Some "")],
                  [SetPhotos (photos st ++ [length h]);
                   OnUpload (photos st ++ [length h]); SetImageUrl ""]))
    as Hadd.
  { unfold step. cbn [handle mbind option_bind]. unfold handleAddUrl.
    cbn [imageUrl]. rewrite bool_decide_eq_false_2 by done.
    by rewrite Hurl. }
  split.
  - cbn [steps]. rewrite Htype. cbn [mbind option_bind]. by rewrite Hadd.
  - cbn [steps]. rewrite Htype. cbn [mbind option_bind]. rewrite Hadd.
    cbn [mbind option_bind]. unfold step. cbn [handle photos].
    destruct (Nat.ltb_spec (length (photos st))
                (length (photos st ++ [length h]))) as [_|Hge];
      [|rewrite length_app in Hge; simpl in Hge; lia].
    cbn [mbind option_bind]. unfold removePhoto, JsArray.filter. cbn [photos].
    rewrite filter_from_delete by lia.
    rewrite Nat.sub_0_r, delete_take_drop, take_app_length.
    rewrite drop_ge by (rewrite length_app; simpl; lia).
    by rewrite app_nil_r.
Qed.

Lemma typed_url_is_added_and_removable_witness :
  steps sample_env sample_state sample_heap
    [UrlInputChange "https://example.com/a.jpg"; AddClick]
  = Some (mkState false None [0; 1; 2] "",
          sample_heap ++ [mkPhoto "https://example.com/a.jpg" (Some "")])
  ∧ steps sample_env sample_state sample_heap
      [UrlInputChange "https://example.com/a.jpg"; AddClick; Row 2 Remove]
    = Some (mkState false None [0; 1] "",
            sample_heap ++ [mkPhoto "https://example.com/a.jpg" (Some "")]).
Proof.
  apply (typed_url_is_added_and_removable sample_env sample_state sample_heap
           "https://example.com/a.jpg"); [discriminate|reflexivity].
Defined.

(** X15. Caption edits of a row overwrite each other: editing the caption of
    a row twice leads to the same render and the same store as the second
    edit alone. *)
Theorem last_caption_edit_wins env st h i c1 c2 :
  i < length (photos st) →
  steps env st h [Row i (CaptionChange c1); Row i (CaptionChange c2)]
  = steps env st h [Row i (CaptionChange c2)].
Proof.
  intros Hlt. destruct (lookup_lt_is_Some_2 _ _ Hlt) as [r Hr].
  assert (∀ st0 h0 c, photos st0 = photos st →
            step env st0 h0 (Row i (CaptionChange c))
            = Some (with_photos st0 (photos st0),
                    alter (λ p, mkPhoto (url p) (Some c)) r h0,
                    [SetPhotos (photos st0); OnUpload (photos st0)]))
    as Hedit.
  { intros st0 h0 c Hsame. unfold step. cbn [handle]. rewrite Hsame.
    destruct (Nat.ltb_spec i (length (photos st))) as [_|?]; [|lia].
    cbn [mbind option_bind].
    rewrite (onCaptionChange_run st0 h0 i r c) by by rewrite Hsame.
    by rewrite Hsame. }
  cbn [steps]. rewrite !Hedit by done. cbn [mbind option_bind].
  rewrite with_photos_same, Hedit by done. cbn [mbind option_bind].
  rewrite with_photos_same. do 2 f_equal.
  by rewrite list_alter_alter_eq.
Qed.

Lemma last_caption_edit_wins_witness :
  steps sample_env sample_state sample_heap
    [Row 1 (CaptionChange "o"); Row 1 (CaptionChange "on")]
  = steps sample_env sample_state sample_heap [Row 1 (CaptionChange "on")].
Proof.
  apply (last_caption_edit_wins sample_env sample_state sample_heap 1).
  simpl. lia.
Defined.

(** X16. What a row offers and a drag touch the photo list only: removing,
    moving, editing a caption or dragging never changes the upload flag,
    the error slot or the URL field, so a message shown before stays. *)
Theorem list_edits_keep_the_rest env st h ev st' h' tr :
  is_list_edit ev = true →
  step env st h ev = Some (st', h', tr) →
  uploading st' = uploading st
  ∧ error st' = error st
  ∧ imageUrl st' = imageUrl st.
Proof.
  intros Hev. unfold step.
  destruct (handle env st ev) as [m|] eqn:Hm; [|done].
  cbn [mbind option_bind]. intros [= <- <- <-].
  destruct ev as [| | |index [| | |caption]|active over]; try done;
    cbn [handle] in Hm.
  - destruct (_ <? _); [|done]. by injection Hm as <-.
  - destruct (_ <? _); [|done].
    by apply movePhoto_shape in Hm as [->|[l ->]].
  - destruct (_ <? _); [|done].
    by apply movePhoto_shape in Hm as [->|[l ->]].
  - destruct (_ <? _); [|done]. injection Hm as <-. unfold onCaptionChange.
    by destruct (_ !! _).
  - by apply handleDragEnd_shape in Hm as [->|[l ->]].
Qed.

Lemma list_edits_keep_the_rest_witness :
  uploading (mkState false (Some "Invalid URL format.") [1] "x") = false
  ∧ error (mkState false (Some "Invalid URL format.") [1] "x")
    = Some "Invalid URL format."
  ∧ imageUrl (mkState false (Some "Invalid URL format.") [1] "x") = "x".
Proof.
  apply (list_edits_keep_the_rest sample_env
           (mkState false (Some "Invalid URL format.") [0; 1] "x") sample_heap
           (Row 0 Remove)
           (mkState false (Some "Invalid URL format.") [1] "x") sample_heap
           [SetPhotos [1]; OnUpload [1]]);
    reflexivity.
Defined.

(** ** Arrays without holes *)

Section NoHoles.
Implicit Types (st : State) (h : Heap).

Lemma arrayMove_from_row {A} (l : list A) i to :
  i < length l → is_Some (arrayMove l (Z.of_nat i) to).
Proof.
  intros Hlt. destruct (lookup_lt_is_Some_2 _ _ Hlt) as [x Hx].
  unfold arrayMove. by rewrite (splice_remove_one _ _ _ Hx).
Qed.

Lemma movePhoto_from_row st i to :
  i < length (photos st) → is_Some (movePhoto st (Z.of_nat i) to).
Proof.
  intros Hlt. destruct (lookup_lt_is_Some_2 _ _ Hlt) as [x Hx].
  unfold movePhoto. destruct (_ || _)%bool; [done|].
  rewrite (splice_remove_one _ _ _ Hx).
  by destruct (JsArray.splice (delete i (photos st)) to 0 [x]).
Qed.
End NoHoles.

(** X17. Nothing the rendered component can emit stores [undefined] in the
    photo array: every button of every rendered row, and every drag of a
    rendered item onto any target or onto none, has an outcome in which the
    array holds photo references only. *)
Theorem rendered_events_keep_arrays_whole env st index :
  index < length (photos st) →
  (∀ a, is_Some (handle env st (Row index a)))
  ∧ (∀ over, is_Some (handle env st (DragEnd (photo_id index) over))).
Proof.
  intros Hlt. split.
  - intros a. cbn [handle].
    destruct (Nat.ltb_spec index (length (photos st))) as [_|?]; [|lia].
    destruct a; try done; by apply movePhoto_from_row.
  - intros over. cbn [handle]. unfold handleDragEnd.
    destruct (bool_decide _); [|done].
    rewrite findIndex_active by done.
    destruct (arrayMove_from_row (photos st) index
                (JsArray.findIndex
                   (λ _ i, bool_decide (Some (photo_id i) = over)) (photos st))
                Hlt) as [l ->].
    done.
Qed.

Lemma rendered_events_keep_arrays_whole_witness :
  (∀ a, is_Some (handle sample_env sample_state (Row 1 a)))
  ∧ (∀ over, is_Some (handle sample_env sample_state
                        (DragEnd (photo_id 1) over))).
Proof.
  apply (rendered_events_keep_arrays_whole sample_env sample_state 1).
  simpl. lia.
Defined.

(** ** Seeding and the first notification *)

(** X18. Seeding is silent but not lost: whatever list the component was
    mounted with, the first event that notifies the parent hands over a list
    that holds every seeded entry, unless that event is a removal. *)
Theorem seeded_entries_reach_parent env existingPhotos h ev st' h' tr l :
  (∀ i, ev ≠ Row i Remove) →
  step env (commit initial_state (trace (mount existingPhotos h))) h ev
  = Some (st', h', tr) →
  l ∈ notifications tr →
  ∃ new, l ≡ₚ default [] existingPhotos ++ new.
Proof.
  intros Hev Hstep Hl.
  assert (photos (commit initial_state (trace (mount existingPhotos h)))
          = default [] existingPhotos) as Hseed.
  { unfold mount. by destruct existingPhotos as [[|??]|]. }
  set (st := commit initial_state (trace (mount existingPhotos h))) in *.
  assert (l = photos st') as ->.
  { unfold step in Hstep.
    destruct (handle env st ev) as [m|] eqn:Hm; [|done].
    cbn [mbind option_bind] in Hstep. injection Hstep as <- <- <-.
    destruct (handle_forwards env st ev m h Hm) as [Heq Hlen].
    rewrite photos_commit, <- Heq.
    destruct (notifications (trace (m h))) as [|l0 [|??]]; cbn in *;
      [by apply elem_of_nil in Hl|by apply list_elem_of_singleton in Hl|lia]. }
  rewrite <- Hseed.
  destruct (step_cases env _ _ _ _ _ _ Hstep)
    as [(fresh & _ & [-> | ->])|[[_ Hperm]|[(i & -> & _)|(i & c & r' & _ & _ & -> & _)]]].
  - exists []. by rewrite app_nil_r.
  - by eexists.
  - exists []. by rewrite app_nil_r.
  - by destruct (Hev i).
  - exists []. by rewrite app_nil_r.
Qed.

Lemma seeded_entries_reach_parent_witness :
  ∃ new, [1; 0] ≡ₚ default [] (Some [0; 1]) ++ new.
Proof.
  apply (seeded_entries_reach_parent sample_env (Some [0; 1]) sample_heap
           (Row 0 MoveDown)
           (mkState false None [1; 0] "") sample_heap
           [SetPhotos [1; 0]; OnUpload [1; 0]]).
  - intros i. discriminate.
  - reflexivity.
  - apply list_elem_of_singleton. reflexivity.
Defined.
